(** * GitHub-to-MongoDB collector: a shallow embedding of
      [github_mongodb_app.py] and the properties of its ingestion pipeline.

    The development follows the source file top-down:
    - [Json]: the documents exchanged with the API and stored in MongoDB;
    - [Mongo]: [MongoDBManager], the six [store_*] methods over a model of
      pymongo's [update_one(filter, {'$set': doc}, upsert=True)];
    - [GitHub]: [GitHubAPIClient], the rate-limit bookkeeping, [_make_request]
      and the paginated [get_*] walks over a scripted network;
    - [Collector]: [GitHubDataCollector.collect_all_data];
    - [MongoProps], [GitHubProps], [CollectorProps]: what holds of them. *)

From Stdlib Require Import QArith Lqa.
From stdpp Require Import gmap strings list fin_maps pretty.

Set Warnings "-register-all".

Local Open Scope string_scope.
Local Open Scope list_scope.
Local Open Scope Z_scope.

(** ** Python values *)

Module Json.

(** Values held in a Python [dict] of the program: what [response.json()]
    yields (null, booleans, integers, strings, arrays, objects) and the
    [datetime] that [_add_timestamp] stores under ['collected_at'],
    kept as a count of microseconds. *)
Inductive value :=
| VNull
| VBool (b : bool)
| VInt (n : Z)
| VStr (s : string)
| VTime (t : Z)
| VList (l : list value)
| VObj (o : list (string * value)).

Definition value_eq_dec (x y : value) : {x = y} + {x <> y}.
Proof.
  revert x y. fix IH 1.
  intros x y. decide equality.
  - apply bool_eq_dec.
  - apply Z.eq_dec.
  - apply String.string_dec.
  - apply Z.eq_dec.
  - apply (List.list_eq_dec IH).
  - apply List.list_eq_dec. intros [k1 v1] [k2 v2].
    destruct (String.string_dec k1 k2) as [->|Hk].
    + destruct (IH v1 v2) as [->|Hv]; [left; reflexivity|].
      right; intros E; apply Hv; congruence.
    + right; intros E; apply Hk; congruence.
Defined.

#[global] Instance value_eq_decision : EqDecision value := value_eq_dec.

(** A document: a Python [dict] with string keys. *)
Abbreviation doc := (gmap string value).

(** Python truthiness, as tested by [if issue_id:]. *)
Definition truthy (v : value) : bool :=
  match v with
  | VNull => false
  | VBool b => b
  | VInt n => negb (n =? 0)
  | VStr s => negb (String.eqb s "")
  | VTime _ => true
  | VList l => match l with [] => false | _ => true end
  | VObj o => match o with [] => false | _ => true end
  end.

(** Python's [str] on the scalars of a payload, for the examples; the
    properties below hold for any function in its place. *)
Definition str_scalar (v : value) : string :=
  match v with
  | VNull => "None"
  | VBool true => "True"
  | VBool false => "False"
  | VInt n => pretty n
  | VStr s => s
  | _ => ""
  end.

(** Exceptions the modelled code can raise. *)
Inductive exn :=
| KeyError (k : string)
| ValueError
| ConnectionError
| JSONDecodeError
| HTTPError (status_code : Z).

Inductive result (A : Type) :=
| Ok (a : A)
| Raise (e : exn).
Arguments Ok {A} a.
Arguments Raise {A} e.

End Json.
Export Json.

(** ** MongoDBManager *)

Module Mongo.

(** The six collections that [_setup_collections] creates. *)
Inductive collection :=
| Repositories | Commits | Contributors | PullRequests | Issues | Comments.

#[global] Instance collection_eq_decision : EqDecision collection.
Proof. solve_decision. Defined.

(** [self.db]: each collection is the list of its documents in insertion
    order. *)
Record Database := {
  repositories : list doc;
  commits : list doc;
  contributors : list doc;
  pull_requests : list doc;
  issues : list doc;
  comments : list doc }.

Definition empty_db : Database :=
  {| repositories := []; commits := []; contributors := [];
     pull_requests := []; issues := []; comments := [] |}.

Definition get_collection (c : collection) (d : Database) : list doc :=
  match c with
  | Repositories => repositories d
  | Commits => commits d
  | Contributors => contributors d
  | PullRequests => pull_requests d
  | Issues => issues d
  | Comments => comments d
  end.

Definition set_collection (c : collection) (l : list doc) (d : Database) : Database :=
  match c with
  | Repositories => {| repositories := l; commits := commits d; contributors := contributors d;
                       pull_requests := pull_requests d; issues := issues d; comments := comments d |}
  | Commits => {| repositories := repositories d; commits := l; contributors := contributors d;
                  pull_requests := pull_requests d; issues := issues d; comments := comments d |}
  | Contributors => {| repositories := repositories d; commits := commits d; contributors := l;
                       pull_requests := pull_requests d; issues := issues d; comments := comments d |}
  | PullRequests => {| repositories := repositories d; commits := commits d; contributors := contributors d;
                       pull_requests := l; issues := issues d; comments := comments d |}
  | Issues => {| repositories := repositories d; commits := commits d; contributors := contributors d;
                 pull_requests := pull_requests d; issues := l; comments := comments d |}
  | Comments => {| repositories := repositories d; commits := commits d; contributors := contributors d;
                   pull_requests := pull_requests d; issues := issues d; comments := l |}
  end.

(** *** pymongo's [update_one(filter, {'$set': doc}, upsert=True)]

    The driver call is modelled by its documented behaviour on the filters
    the program builds, which are equality filters on top-level fields: a
    document matches when it holds every field of the filter with an equal
    value; the first matching document, in insertion order, gets the fields
    of the [$set] document written over its own and keeps its other fields;
    when no document matches, one is inserted that holds the fields of the
    filter and of the [$set] document.  Values are compared as a whole: the
    natural keys of the payloads (ids, shas, logins) are numbers and strings,
    and MongoDB's matching of an array field by one of its elements, and of a
    missing field by null, is not modelled.  The server-generated [_id] and
    the query operators, which the program never uses, are left out. *)

Definition matches (flt d : doc) : bool := bool_decide (flt ⊆ d).

Fixpoint update_first (flt upd : doc) (c : list doc) : option (list doc) :=
  match c with
  | [] => None
  | d :: ds =>
      if matches flt d then Some ((upd ∪ d) :: ds)
      else cons d <$> update_first flt upd ds
  end.

Definition upsert (flt upd : doc) (c : list doc) : list doc :=
  match update_first flt upd c with
  | Some c' => c'
  | None => c ++ [upd ∪ flt]
  end.

(** One [update_one] call, as it is sent to the server. *)
Record write := {
  w_coll : collection;
  w_filter : doc;
  w_set : doc }.

(** The manager, together with the two things its methods act on: the
    number of times the clock has been read so far and the calls sent to the
    server so far. *)
Record MongoDBManager := {
  db : Database;
  clock_reads : nat;
  oplog : list write }.

Definition apply_write (w : write) (d : Database) : Database :=
  set_collection (w_coll w) (upsert (w_filter w) (w_set w) (get_collection (w_coll w) d)) d.

Definition apply_writes (ws : list write) (d : Database) : Database :=
  foldl (fun d w => apply_write w d) d ws.

(** The writes of a list on one collection, whatever collection they name. *)
Definition upsert_all (ws : list write) (c : list doc) : list doc :=
  foldl (fun c w => upsert (w_filter w) (w_set w) c) c ws.

Definition update_one (c : collection) (flt upd : doc) (self : MongoDBManager) : MongoDBManager :=
  let w := {| w_coll := c; w_filter := flt; w_set := upd |} in
  {| db := apply_write w (db self);
     clock_reads := clock_reads self;
     oplog := oplog self ++ [w] |}.

Section Store.

(** [datetime.now(timezone.utc)]: [utcnow k] is what the [k]-th reading of
    the clock returns.  [py_str] is Python's [str]. *)
Variable utcnow : nat -> Z.
Variable py_str : value -> string.

Definition _add_timestamp (document : doc) (self : MongoDBManager) : MongoDBManager * doc :=
  ({| db := db self; clock_reads := S (clock_reads self); oplog := oplog self |},
   <["collected_at" := VTime (utcnow (clock_reads self))]> document).

(** Every [store_*] method returns the manager after the call, the records
    of the argument list as the call leaves them (the loop writes into the
    caller's dictionaries) and the returned list or the exception raised. *)
Definition outcome : Type := MongoDBManager * list doc * result (list value).

Fixpoint store_repositories_loop (repositories : list doc) (repo_ids : list value)
    (self : MongoDBManager) : outcome :=
  match repositories with
  | [] => (self, [], Ok repo_ids)
  | repo :: rest =>
      let '(self, repo) := _add_timestamp repo self in
      match repo !! "id" with
      | None => (self, repo :: rest, Raise (KeyError "id"))
      | Some id =>
          let self := update_one Repositories {["id" := id]} repo self in
          let '(self, rest, r) :=
            store_repositories_loop rest (repo_ids ++ [VStr (py_str id)]) self in
          (self, repo :: rest, r)
      end
  end.

Definition store_repositories (repositories : list doc) (self : MongoDBManager) : outcome :=
  match repositories with
  | [] => (self, [], Ok [])
  | _ => store_repositories_loop repositories [] self
  end.

Fixpoint store_commits_loop (repository_id : value) (commits : list doc)
    (commit_ids : list value) (self : MongoDBManager) : outcome :=
  match commits with
  | [] => (self, [], Ok commit_ids)
  | commit :: rest =>
      let '(self, commit) := _add_timestamp commit self in
      let commit := <["repository_id" := repository_id]> commit in
      match commit !! "sha" with
      | None => (self, commit :: rest, Raise (KeyError "sha"))
      | Some sha =>
          let self := update_one Commits
                        {["sha" := sha; "repository_id" := repository_id]} commit self in
          let '(self, rest, r) :=
            store_commits_loop repository_id rest (commit_ids ++ [sha]) self in
          (self, commit :: rest, r)
      end
  end.

Definition store_commits (repository_id : value) (commits : list doc)
    (self : MongoDBManager) : outcome :=
  match commits with
  | [] => (self, [], Ok [])
  | _ => store_commits_loop repository_id commits [] self
  end.

Fixpoint store_contributors_loop (repository_id : value) (contributors : list doc)
    (contributor_ids : list value) (self : MongoDBManager) : outcome :=
  match contributors with
  | [] => (self, [], Ok contributor_ids)
  | contributor :: rest =>
      let '(self, contributor) := _add_timestamp contributor self in
      let contributor := <["repository_id" := repository_id]> contributor in
      match contributor !! "login" with
      | None => (self, contributor :: rest, Raise (KeyError "login"))
      | Some login =>
          let self := update_one Contributors
                        {["login" := login; "repository_id" := repository_id]}
                        contributor self in
          let '(self, rest, r) :=
            store_contributors_loop repository_id rest (contributor_ids ++ [login]) self in
          (self, contributor :: rest, r)
      end
  end.

Definition store_contributors (repository_id : value) (contributors : list doc)
    (self : MongoDBManager) : outcome :=
  match contributors with
  | [] => (self, [], Ok [])
  | _ => store_contributors_loop repository_id contributors [] self
  end.

Fixpoint store_pull_requests_loop (repository_id : value) (pull_requests : list doc)
    (pr_ids : list value) (self : MongoDBManager) : outcome :=
  match pull_requests with
  | [] => (self, [], Ok pr_ids)
  | pr :: rest =>
      let '(self, pr) := _add_timestamp pr self in
      let pr := <["repository_id" := repository_id]> pr in
      match pr !! "id" with
      | None => (self, pr :: rest, Raise (KeyError "id"))
      | Some id =>
          let self := update_one PullRequests {["id" := id]} pr self in
          match pr !! "number" with
          | None => (self, pr :: rest, Raise (KeyError "number"))
          | Some number =>
              let '(self, rest, r) :=
                store_pull_requests_loop repository_id rest (pr_ids ++ [number]) self in
              (self, pr :: rest, r)
          end
      end
  end.

Definition store_pull_requests (repository_id : value) (pull_requests : list doc)
    (self : MongoDBManager) : outcome :=
  match pull_requests with
  | [] => (self, [], Ok [])
  | _ => store_pull_requests_loop repository_id pull_requests [] self
  end.

(** ['pull_request' in issue] *)
Definition has_pull_request (issue : doc) : bool :=
  bool_decide (is_Some (issue !! "pull_request")).

Fixpoint store_issues_loop (repository_id : value) (issues : list doc)
    (issue_ids : list value) (self : MongoDBManager) : outcome :=
  match issues with
  | [] => (self, [], Ok issue_ids)
  | issue :: rest =>
      if has_pull_request issue then
        let '(self, rest, r) := store_issues_loop repository_id rest issue_ids self in
        (self, issue :: rest, r)
      else
        let '(self, issue) := _add_timestamp issue self in
        let issue := <["repository_id" := repository_id]> issue in
        match issue !! "id" with
        | None => (self, issue :: rest, Raise (KeyError "id"))
        | Some id =>
            let self := update_one Issues {["id" := id]} issue self in
            match issue !! "number" with
            | None => (self, issue :: rest, Raise (KeyError "number"))
            | Some number =>
                let '(self, rest, r) :=
                  store_issues_loop repository_id rest (issue_ids ++ [number]) self in
                (self, issue :: rest, r)
            end
        end
  end.

Definition store_issues (repository_id : value) (issues : list doc)
    (self : MongoDBManager) : outcome :=
  match issues with
  | [] => (self, [], Ok [])
  | _ => store_issues_loop repository_id issues [] self
  end.

(** [issue_id] and [pull_request_id] default to [None], here [VNull]. *)
Fixpoint store_comments_loop (repository_id : value) (comments : list doc)
    (issue_id pull_request_id : value)
    (comment_ids : list value) (self : MongoDBManager) : outcome :=
  match comments with
  | [] => (self, [], Ok comment_ids)
  | comment :: rest =>
      let '(self, comment) := _add_timestamp comment self in
      let comment := <["repository_id" := repository_id]> comment in
      let comment :=
        if truthy issue_id then <["issue_id" := issue_id]> comment else comment in
      let comment :=
        if truthy pull_request_id then <["pull_request_id" := pull_request_id]> comment
        else comment in
      match comment !! "id" with
      | None => (self, comment :: rest, Raise (KeyError "id"))
      | Some id =>
          let self := update_one Comments {["id" := id]} comment self in
          let '(self, rest, r) :=
            store_comments_loop repository_id rest issue_id pull_request_id
              (comment_ids ++ [id]) self in
          (self, comment :: rest, r)
      end
  end.

Definition store_comments (repository_id : value) (comments : list doc)
    (issue_id pull_request_id : value) (self : MongoDBManager) : outcome :=
  match comments with
  | [] => (self, [], Ok [])
  | _ => store_comments_loop repository_id comments issue_id pull_request_id [] self
  end.


(** *** The store methods as one family *)

(** A call of one of the six [store_*] methods with its arguments. *)
Inductive store_call :=
| StoreRepositories (repositories : list doc)
| StoreCommits (repository_id : value) (commits : list doc)
| StoreContributors (repository_id : value) (contributors : list doc)
| StorePullRequests (repository_id : value) (pull_requests : list doc)
| StoreIssues (repository_id : value) (issues : list doc)
| StoreComments (repository_id : value) (comments : list doc)
    (issue_id pull_request_id : value).

Definition run_call (c : store_call) (self : MongoDBManager) : outcome :=
  match c with
  | StoreRepositories l => store_repositories l self
  | StoreCommits rid l => store_commits rid l self
  | StoreContributors rid l => store_contributors rid l self
  | StorePullRequests rid l => store_pull_requests rid l self
  | StoreIssues rid l => store_issues rid l self
  | StoreComments rid l i p => store_comments rid l i p self
  end.

Definition call_records (c : store_call) : list doc :=
  match c with
  | StoreRepositories l | StoreCommits _ l | StoreContributors _ l
  | StorePullRequests _ l | StoreIssues _ l | StoreComments _ l _ _ => l
  end.

Definition with_records (c : store_call) (l : list doc) : store_call :=
  match c with
  | StoreRepositories _ => StoreRepositories l
  | StoreCommits rid _ => StoreCommits rid l
  | StoreContributors rid _ => StoreContributors rid l
  | StorePullRequests rid _ => StorePullRequests rid l
  | StoreIssues rid _ => StoreIssues rid l
  | StoreComments rid _ i p => StoreComments rid l i p
  end.

(** The shape the six loops share: the collection written, the records
    skipped, the fields written into a record after the timestamp, the
    fields of the filter, and the field appended to the returned list. *)
Record loop_spec := {
  ls_coll : collection;
  ls_skip : doc -> bool;
  ls_inject : list (string * value);
  ls_keys : list string;
  ls_ret : string;
  ls_conv : value -> value }.

Definition inject (l : list (string * value)) (d : doc) : doc :=
  foldl (fun d kv => <[kv.1 := kv.2]> d) d l.

Fixpoint project (keys : list string) (d : doc) : result doc :=
  match keys with
  | [] => Ok ∅
  | k :: ks =>
      match d !! k with
      | None => Raise (KeyError k)
      | Some v =>
          match project ks d with
          | Ok f => Ok (<[k := v]> f)
          | Raise e => Raise e
          end
      end
  end.

Definition prepare (s : loop_spec) (t : Z) (r : doc) : doc :=
  inject (ls_inject s) (<["collected_at" := VTime t]> r).

Fixpoint run_loop (s : loop_spec) (recs : list doc) (acc : list value)
    (self : MongoDBManager) : outcome :=
  match recs with
  | [] => (self, [], Ok acc)
  | r :: rest =>
      if ls_skip s r then
        let '(self, rest, res) := run_loop s rest acc self in
        (self, r :: rest, res)
      else
        let '(self, r) := _add_timestamp r self in
        let r := inject (ls_inject s) r in
        match project (ls_keys s) r with
        | Raise e => (self, r :: rest, Raise e)
        | Ok flt =>
            let self := update_one (ls_coll s) flt r self in
            match r !! ls_ret s with
            | None => (self, r :: rest, Raise (KeyError (ls_ret s)))
            | Some v =>
                let '(self, rest, res) := run_loop s rest (acc ++ [ls_conv s v]) self in
                (self, r :: rest, res)
            end
        end
  end.

Definition run_spec (s : loop_spec) (recs : list doc) (self : MongoDBManager) : outcome :=
  match recs with
  | [] => (self, [], Ok [])
  | _ => run_loop s recs [] self
  end.

Definition comment_links (issue_id pull_request_id : value) : list (string * value) :=
  (if truthy issue_id then [("issue_id", issue_id)] else []) ++
  (if truthy pull_request_id then [("pull_request_id", pull_request_id)] else []).

Definition call_spec (c : store_call) : loop_spec :=
  match c with
  | StoreRepositories _ =>
      {| ls_coll := Repositories; ls_skip := fun _ => false; ls_inject := [];
         ls_keys := ["id"]; ls_ret := "id"; ls_conv := fun v => VStr (py_str v) |}
  | StoreCommits rid _ =>
      {| ls_coll := Commits; ls_skip := fun _ => false;
         ls_inject := [("repository_id", rid)];
         ls_keys := ["sha"; "repository_id"]; ls_ret := "sha"; ls_conv := id |}
  | StoreContributors rid _ =>
      {| ls_coll := Contributors; ls_skip := fun _ => false;
         ls_inject := [("repository_id", rid)];
         ls_keys := ["login"; "repository_id"]; ls_ret := "login"; ls_conv := id |}
  | StorePullRequests rid _ =>
      {| ls_coll := PullRequests; ls_skip := fun _ => false;
         ls_inject := [("repository_id", rid)];
         ls_keys := ["id"]; ls_ret := "number"; ls_conv := id |}
  | StoreIssues rid _ =>
      {| ls_coll := Issues; ls_skip := has_pull_request;
         ls_inject := [("repository_id", rid)];
         ls_keys := ["id"]; ls_ret := "number"; ls_conv := id |}
  | StoreComments rid _ i p =>
      {| ls_coll := Comments; ls_skip := fun _ => false;
         ls_inject := ("repository_id", rid) :: comment_links i p;
         ls_keys := ["id"]; ls_ret := "id"; ls_conv := id |}
  end.

(** The [update_one] calls a loop sends, in order, when the clock has been
    read [n] times before. *)
Fixpoint plan (s : loop_spec) (n : nat) (recs : list doc) : list write :=
  match recs with
  | [] => []
  | r :: rest =>
      if ls_skip s r then plan s n rest
      else
        let r := prepare s (utcnow n) r in
        match project (ls_keys s) r with
        | Raise _ => []
        | Ok flt =>
            {| w_coll := ls_coll s; w_filter := flt; w_set := r |} ::
            match r !! ls_ret s with
            | None => []
            | Some _ => plan s (S n) rest
            end
        end
  end.

End Store.

(** A document with its timestamp taken off, and the timestamp itself. *)
Definition strip (d : doc) : doc := delete "collected_at" d.




Definition strip_write (w : write) : write :=
  {| w_coll := w_coll w; w_filter := w_filter w; w_set := strip (w_set w) |}.

(** Two first-match targets of a filter that differ only in fields the
    update writes: the rest of the collection is equal. *)
Inductive eq_upto (flt upd : doc) : list doc -> list doc -> Prop :=
| eq_upto_nil : eq_upto flt upd [] []
| eq_upto_skip d l1 l2 :
    ¬ flt ⊆ d -> eq_upto flt upd l1 l2 -> eq_upto flt upd (d :: l1) (d :: l2)
| eq_upto_hit d1 d2 l :
    flt ⊆ d1 -> flt ⊆ d2 -> upd ∪ d1 = upd ∪ d2 ->
    eq_upto flt upd (d1 :: l) (d2 :: l).

(** A write of a loop over the key fields [K]: the filter is on exactly
    those fields and is part of the document written. *)
Definition keyed (K : gset string) (w : write) : Prop :=
  dom (w_filter w) = K /\ w_filter w ⊆ w_set w.

(** The repository id a call injects into the records of a child
    collection. *)
Definition call_repository_id (c : store_call) : option value :=
  match c with
  | StoreRepositories _ => None
  | StoreCommits rid _ | StoreContributors rid _ | StorePullRequests rid _
  | StoreIssues rid _ | StoreComments rid _ _ _ => Some rid
  end.


(** The records of an issue list that carry no pull-request marker. *)
Definition true_issues (issues : list doc) : list doc :=
  List.filter (fun issue => negb (has_pull_request issue)) issues.

(** The key fields of a loop and the records it does not skip. *)
Definition key_set (s : loop_spec) : gset string := list_to_set (ls_keys s).

Definition kept (s : loop_spec) (recs : list doc) : list doc :=
  List.filter (fun r => negb (ls_skip s r)) recs.

(** What the loops rely on: the timestamp is no key field, is not the
    returned field and is not overwritten after [_add_timestamp]; writing the
    timestamp and the injected fields does not turn a record into a skipped
    one or back. *)
Record spec_ok (s : loop_spec) : Prop := {
  ok_keys : "collected_at" ∉ ls_keys s;
  ok_ret : ls_ret s ≠ "collected_at";
  ok_inject : "collected_at" ∉ (ls_inject s).*1;
  ok_skip : forall r r', inject (ls_inject s) (strip r') = inject (ls_inject s) (strip r) ->
                         ls_skip s r' = ls_skip s r }.

Definition has_match (flt : doc) (c : list doc) : Prop :=
  Exists (fun d => flt ⊆ d) c.

(** A clock that advances by one at each reading, and a manager on an
    empty database, for the examples. *)
Definition ticking_clock (n : nat) : Z := 1700000000 + Z.of_nat n.

Definition fresh_manager : MongoDBManager :=
  {| db := empty_db; clock_reads := 0; oplog := [] |}.

Definition octocat_repo : doc :=
  {["id" := VInt 1296269; "name" := VStr "Hello-World"]}.


(** *** The arguments of a call, field by field *)

(** The collection a method writes. *)
Definition call_collection (c : store_call) : collection :=
  match c with
  | StoreRepositories _ => Repositories
  | StoreCommits _ _ => Commits
  | StoreContributors _ _ => Contributors
  | StorePullRequests _ _ => PullRequests
  | StoreIssues _ _ => Issues
  | StoreComments _ _ _ _ => Comments
  end.

(** The payload field a method reads for its filter, and the one it reads
    for the list it returns. *)
Definition call_key (c : store_call) : string :=
  match c with
  | StoreCommits _ _ => "sha"
  | StoreContributors _ _ => "login"
  | _ => "id"
  end.

Definition call_returned (c : store_call) : string :=
  match c with
  | StoreCommits _ _ => "sha"
  | StoreContributors _ _ => "login"
  | StorePullRequests _ _ | StoreIssues _ _ => "number"
  | _ => "id"
  end.

(** The records a method steps over. *)
Definition call_skips (c : store_call) (r : doc) : bool :=
  match c with
  | StoreIssues _ _ => has_pull_request r
  | _ => false
  end.

Definition call_kept (c : store_call) (records : list doc) : list doc :=
  List.filter (fun r => negb (call_skips c r)) records.

(** The fields of a document that make its natural key in a collection. *)
Definition natural_key (k : collection) : list string :=
  match k with
  | Commits => ["sha"; "repository_id"]
  | Contributors => ["login"; "repository_id"]
  | _ => ["id"]
  end.

(** No two documents of the collection hold the same value of every field
    of [keys]. *)
Definition unique_keys (keys : list string) (c : list doc) : Prop :=
  forall i j d d' f,
    c !! i = Some d -> c !! j = Some d' ->
    project keys d = Ok f -> project keys d' = Ok f -> i = j.

(** A document after a write on its key fields: every field it had is
    there, the key fields with the value they had. *)
Definition outlives (keys : list string) (d d' : doc) : Prop :=
  dom d ⊆ dom d' /\ forall f, f ∈ keys -> d' !! f = d !! f.

(** A record as a method leaves it in the caller's list and sends it to
    the server, at clock reading [t]. *)
Definition stored_form (c : store_call) (t : Z) (r : doc) : doc :=
  let r := <["collected_at" := VTime t]> r in
  match c with
  | StoreRepositories _ => r
  | StoreCommits rid _ | StoreContributors rid _ | StorePullRequests rid _
  | StoreIssues rid _ => <["repository_id" := rid]> r
  | StoreComments rid _ issue_id pull_request_id =>
      let r := <["repository_id" := rid]> r in
      let r := if truthy issue_id then <["issue_id" := issue_id]> r else r in
      if truthy pull_request_id then <["pull_request_id" := pull_request_id]> r else r
  end.

(** The filter a method builds from such a record. *)
Definition key_filter (c : store_call) (v : value) : doc :=
  match c with
  | StoreCommits rid _ => {["sha" := v; "repository_id" := rid]}
  | StoreContributors rid _ => {["login" := v; "repository_id" := rid]}
  | _ => {["id" := v]}
  end.

(** A record a method can store: it has the field of the filter and the
    field returned, unless the method steps over it. *)
Definition storable (c : store_call) (r : doc) : Prop :=
  call_skips c r = false ->
  is_Some (r !! call_key c) /\ is_Some (r !! call_returned c).

(** [str] for the keys [store_repositories] returns, the value itself for
    the other methods. *)
Definition returned_key (py_str : value -> string) (c : store_call) (v : value) : value :=
  match c with
  | StoreRepositories _ => VStr (py_str v)
  | _ => v
  end.

(** The [update_one] a method sends for a record whose key field is [v]. *)
Definition sent_write (c : store_call) (t : Z) (r : doc) (v : value) : write :=
  {| w_coll := call_collection c;
     w_filter := key_filter c v;
     w_set := stored_form c t r |}.

(** *** Sample records and states *)

Definition hello_commit : doc := {["sha" := VStr "a1"; "message" := VStr "hello"]}.
Definition world_commit : doc := {["sha" := VStr "b2"; "message" := VStr "world"]}.
Definition no_sha_commit : doc := {["message" := VStr "lost"]}.
Definition numbered_pull : doc := {["id" := VInt 501; "number" := VInt 2]}.
Definition unnumbered_pull : doc := {["id" := VInt 502]}.

(** A manager whose commits collection holds [hello_commit] of repository
    [1296269]. *)
Definition seeded_manager : MongoDBManager :=
  {| db := set_collection Commits
             [ {["sha" := VStr "a1"; "message" := VStr "hello";
                 "repository_id" := VInt 1296269; "collected_at" := VTime 1699999999]} ]
             empty_db;
     clock_reads := 7;
     oplog := [] |}.

End Mongo.

(** ** GitHubAPIClient *)

Module GitHub.

(** *** Python's [int] on a header text

    Optional blanks, an optional sign, decimal digits that single
    underscores may separate, optional blanks; anything else raises
    [ValueError]. *)

Definition is_space (a : Ascii.ascii) : bool :=
  let n := Ascii.nat_of_ascii a in
  ((9 <=? n)%nat && (n <=? 13)%nat) || (n =? 32)%nat.

Definition digit_value (a : Ascii.ascii) : option Z :=
  let n := Ascii.nat_of_ascii a in
  if ((48 <=? n)%nat && (n <=? 57)%nat) then Some (Z.of_nat (n - 48)) else None.

Fixpoint lstrip (s : string) : string :=
  match s with
  | String a s' => if is_space a then lstrip s' else s
  | EmptyString => EmptyString
  end.

Definition strip_blanks (s : string) : string :=
  String.rev (lstrip (String.rev (lstrip s))).

Fixpoint digits (acc : Z) (after_digit : bool) (s : string) : option Z :=
  match s with
  | EmptyString => if after_digit then Some acc else None
  | String a s' =>
      match digit_value a with
      | Some d => digits (10 * acc + d) true s'
      | None =>
          if (Ascii.nat_of_ascii a =? 95)%nat && after_digit then digits acc false s' else None
      end
  end.

Definition py_int (s : string) : option Z :=
  match strip_blanks s with
  | String a r =>
      if (Ascii.nat_of_ascii a =? 43)%nat then digits 0 false r
      else if (Ascii.nat_of_ascii a =? 45)%nat then Z.opp <$> digits 0 false r
      else digits 0 false (String a r)
  | EmptyString => None
  end.

(** *** Time

    [time.time()] and the sleeps are rationals, in seconds. *)

Definition Qltb (x y : Q) : bool := negb (Qle_bool y x).

(** [max(a, b)]: the first argument unless the second is greater. *)
Definition py_max (a b : Q) : Q := if Qltb a b then b else a.

(** [int(x)] on a number: truncation toward zero. *)
Definition py_trunc (x : Q) : Z := Z.quot (Qnum x) (Zpos (Qden x)).

(** *** The network *)

Record GitHubConfig := {
  token : string;
  base_url : string;
  requests_per_hour : Z }.

(** What [session.get] returns: the status, the headers (keyed by header
    name, as the library's case-insensitive dictionary finds them) and the
    body as [response.json()] decodes it, [None] when it is not JSON.  The
    bodies are the arrays of objects of the list endpoints. *)
Record Response := {
  status_code : Z;
  headers : gmap string string;
  json : option (list doc) }.

Inductive reply :=
| Responds (response : Response)
| Fails.

Inductive event :=
| Sleep (seconds : Q)
| Get (url : string) (params : doc).

(** The world of a client: the clock, the replies still to come, each with
    the time the exchange takes, and what the client has done so far. *)
Record Network := {
  now : Q;
  pending : list (Q * reply);
  trace : list event }.

Record GitHubAPIClient := {
  config : GitHubConfig;
  rate_limit_remaining : Z;
  rate_limit_reset : Q }.

Definition __init__ (cfg : GitHubConfig) (net : Network) : GitHubAPIClient :=
  {| config := cfg;
     rate_limit_remaining := requests_per_hour cfg;
     rate_limit_reset := (now net + inject_Z 3600)%Q |}.

Definition sleep (seconds : Q) (net : Network) : Network :=
  {| now := (now net + seconds)%Q;
     pending := pending net;
     trace := trace net ++ [Sleep seconds] |}.

Definition session_get (url : string) (params : doc) (net : Network)
    : option (Network * reply) :=
  match pending net with
  | [] => None
  | (latency, r) :: rest =>
      Some ({| now := (now net + latency)%Q;
               pending := rest;
               trace := trace net ++ [Get url params] |}, r)
  end.

(** [response.raise_for_status()] raises for the statuses 400 to 599. *)
Definition is_http_error (status : Z) : bool :=
  (400 <=? status) && (status <? 600).

(** *** The client *)

Definition _check_rate_limit (self : GitHubAPIClient) (net : Network) : Network :=
  if rate_limit_remaining self <=? 1 then
    let sleep_time := py_max (inject_Z 0) (rate_limit_reset self - now net)%Q in
    if Qltb (inject_Z 0) sleep_time then sleep sleep_time net else net
  else net.

(** A call returns [None] when the replies run out, and otherwise the
    client and the network after the call with the value returned or the
    exception raised. *)
Definition answer (A : Type) : Type := option (GitHubAPIClient * Network * result A).

Definition _make_request (endpoint : string) (params : doc)
    (self : GitHubAPIClient) (net : Network) : answer (list doc) :=
  let net := _check_rate_limit self net in
  let url := base_url (config self) +:+ endpoint in
  match session_get url params net with
  | None => None
  | Some (net, Fails) => Some (self, net, Raise ConnectionError)
  | Some (net, Responds response) =>
      match
        match headers response !! "X-RateLimit-Remaining" with
        | Some text => py_int text
        | None => Some 0
        end
      with
      | None => Some (self, net, Raise ValueError)
      | Some remaining =>
          let self := {| config := config self;
                         rate_limit_remaining := remaining;
                         rate_limit_reset := rate_limit_reset self |} in
          match
            match headers response !! "X-RateLimit-Reset" with
            | Some text => py_int text
            | None => Some (py_trunc (now net + inject_Z 3600)%Q)
            end
          with
          | None => Some (self, net, Raise ValueError)
          | Some reset =>
              let self := {| config := config self;
                             rate_limit_remaining := rate_limit_remaining self;
                             rate_limit_reset := inject_Z reset |} in
              if is_http_error (status_code response) then
                Some (self, net, Raise (HTTPError (status_code response)))
              else
                match json response with
                | None => Some (self, net, Raise JSONDecodeError)
                | Some data => Some (self, net, Ok data)
                end
          end
      end
  end.

(** The [while True] loops take the number of iterations they may make. *)
Fixpoint get_repositories_loop (fuel : nat) (owner : string) (per_page : Z)
    (repos : list doc) (page : Z)
    (self : GitHubAPIClient) (net : Network) : answer (list doc) :=
  match fuel with
  | O => None
  | S fuel =>
      match _make_request ("/users/" +:+ owner +:+ "/repos")
              {["per_page" := VInt per_page; "page" := VInt page;
                "sort" := VStr "updated"]} self net with
      | None => None
      | Some (self, net, Raise e) => Some (self, net, Raise e)
      | Some (self, net, Ok data) =>
          match data with
          | [] => Some (self, net, Ok repos)
          | _ =>
              let repos := repos ++ data in
              let page := page + 1 in
              if Z.of_nat (length data) <? per_page then Some (self, net, Ok repos)
              else get_repositories_loop fuel owner per_page repos page self net
          end
      end
  end.

Definition get_repositories (fuel : nat) (owner : string) (per_page : Z)
    (self : GitHubAPIClient) (net : Network) : answer (list doc) :=
  get_repositories_loop fuel owner per_page [] 1 self net.

Fixpoint get_commits_loop (fuel : nat) (owner repo : string) (per_page : Z)
    (commits : list doc) (page : Z)
    (self : GitHubAPIClient) (net : Network) : answer (list doc) :=
  match fuel with
  | O => None
  | S fuel =>
      match _make_request ("/repos/" +:+ owner +:+ "/" +:+ repo +:+ "/commits")
              {["per_page" := VInt per_page; "page" := VInt page]} self net with
      | None => None
      | Some (self, net, Raise (HTTPError status)) =>
          if status =? 409 then Some (self, net, Ok commits)
          else Some (self, net, Raise (HTTPError status))
      | Some (self, net, Raise e) => Some (self, net, Raise e)
      | Some (self, net, Ok data) =>
          match data with
          | [] => Some (self, net, Ok commits)
          | _ =>
              let commits := commits ++ data in
              let page := page + 1 in
              if Z.of_nat (length data) <? per_page then Some (self, net, Ok commits)
              else get_commits_loop fuel owner repo per_page commits page self net
          end
      end
  end.

Definition get_commits (fuel : nat) (owner repo : string) (per_page : Z)
    (self : GitHubAPIClient) (net : Network) : answer (list doc) :=
  get_commits_loop fuel owner repo per_page [] 1 self net.

Definition get_contributors (owner repo : string)
    (self : GitHubAPIClient) (net : Network) : answer (list doc) :=
  match _make_request ("/repos/" +:+ owner +:+ "/" +:+ repo +:+ "/contributors") ∅
          self net with
  | None => None
  | Some (self, net, Raise (HTTPError status)) =>
      if status =? 404 then Some (self, net, Ok [])
      else Some (self, net, Raise (HTTPError status))
  | Some (self, net, r) => Some (self, net, r)
  end.

Fixpoint get_pull_requests_loop (fuel : nat) (owner repo state : string)
    (prs : list doc) (page : Z)
    (self : GitHubAPIClient) (net : Network) : answer (list doc) :=
  match fuel with
  | O => None
  | S fuel =>
      match _make_request ("/repos/" +:+ owner +:+ "/" +:+ repo +:+ "/pulls")
              {["state" := VStr state; "per_page" := VInt 100; "page" := VInt page]}
              self net with
      | None => None
      | Some (self, net, Raise e) => Some (self, net, Raise e)
      | Some (self, net, Ok data) =>
          match data with
          | [] => Some (self, net, Ok prs)
          | _ =>
              let prs := prs ++ data in
              let page := page + 1 in
              if Z.of_nat (length data) <? 100 then Some (self, net, Ok prs)
              else get_pull_requests_loop fuel owner repo state prs page self net
          end
      end
  end.

Definition get_pull_requests (fuel : nat) (owner repo state : string)
    (self : GitHubAPIClient) (net : Network) : answer (list doc) :=
  get_pull_requests_loop fuel owner repo state [] 1 self net.

Fixpoint get_issues_loop (fuel : nat) (owner repo state : string)
    (issues : list doc) (page : Z)
    (self : GitHubAPIClient) (net : Network) : answer (list doc) :=
  match fuel with
  | O => None
  | S fuel =>
      match _make_request ("/repos/" +:+ owner +:+ "/" +:+ repo +:+ "/issues")
              {["state" := VStr state; "per_page" := VInt 100; "page" := VInt page]}
              self net with
      | None => None
      | Some (self, net, Raise e) => Some (self, net, Raise e)
      | Some (self, net, Ok data) =>
          match data with
          | [] => Some (self, net, Ok issues)
          | _ =>
              let issues := issues ++ data in
              let page := page + 1 in
              if Z.of_nat (length data) <? 100 then Some (self, net, Ok issues)
              else get_issues_loop fuel owner repo state issues page self net
          end
      end
  end.

Definition get_issues (fuel : nat) (owner repo state : string)
    (self : GitHubAPIClient) (net : Network) : answer (list doc) :=
  get_issues_loop fuel owner repo state [] 1 self net.

(** *** The paginated walks as one family *)

(** A call of one of the four walks with its arguments. *)
Inductive walk_call :=
| GetRepositories (owner : string) (per_page : Z)
| GetCommits (owner repo : string) (per_page : Z)
| GetPullRequests (owner repo state : string)
| GetIssues (owner repo state : string).

Definition run_walk (fuel : nat) (c : walk_call)
    (self : GitHubAPIClient) (net : Network) : answer (list doc) :=
  match c with
  | GetRepositories owner per_page => get_repositories fuel owner per_page self net
  | GetCommits owner repo per_page => get_commits fuel owner repo per_page self net
  | GetPullRequests owner repo state => get_pull_requests fuel owner repo state self net
  | GetIssues owner repo state => get_issues fuel owner repo state self net
  end.

(** The shape the four loops share: the endpoint, the query parameters of
    a page, the page size, and the statuses of [HTTPError] that end the walk
    instead of being raised again. *)
Record walk_spec := {
  wk_endpoint : string;
  wk_params : Z -> doc;
  wk_per_page : Z;
  wk_stop : Z -> bool }.

Fixpoint walk (w : walk_spec) (fuel : nat) (items : list doc) (page : Z)
    (self : GitHubAPIClient) (net : Network) : answer (list doc) :=
  match fuel with
  | O => None
  | S fuel =>
      match _make_request (wk_endpoint w) (wk_params w page) self net with
      | None => None
      | Some (self, net, Raise (HTTPError status)) =>
          if wk_stop w status then Some (self, net, Ok items)
          else Some (self, net, Raise (HTTPError status))
      | Some (self, net, Raise e) => Some (self, net, Raise e)
      | Some (self, net, Ok data) =>
          match data with
          | [] => Some (self, net, Ok items)
          | _ =>
              if Z.of_nat (length data) <? wk_per_page w
              then Some (self, net, Ok (items ++ data))
              else walk w fuel (items ++ data) (page + 1) self net
          end
      end
  end.

Definition walk_of (c : walk_call) : walk_spec :=
  match c with
  | GetRepositories owner per_page =>
      {| wk_endpoint := "/users/" +:+ owner +:+ "/repos";
         wk_params := fun page => {["per_page" := VInt per_page; "page" := VInt page;
                                    "sort" := VStr "updated"]};
         wk_per_page := per_page;
         wk_stop := fun _ => false |}
  | GetCommits owner repo per_page =>
      {| wk_endpoint := "/repos/" +:+ owner +:+ "/" +:+ repo +:+ "/commits";
         wk_params := fun page => {["per_page" := VInt per_page; "page" := VInt page]};
         wk_per_page := per_page;
         wk_stop := fun status => status =? 409 |}
  | GetPullRequests owner repo state =>
      {| wk_endpoint := "/repos/" +:+ owner +:+ "/" +:+ repo +:+ "/pulls";
         wk_params := fun page => {["state" := VStr state; "per_page" := VInt 100;
                                    "page" := VInt page]};
         wk_per_page := 100;
         wk_stop := fun _ => false |}
  | GetIssues owner repo state =>
      {| wk_endpoint := "/repos/" +:+ owner +:+ "/" +:+ repo +:+ "/issues";
         wk_params := fun page => {["state" := VStr state; "per_page" := VInt 100;
                                    "page" := VInt page]};
         wk_per_page := 100;
         wk_stop := fun _ => false |}
  end.

(** The requests in a trace, in order. *)
Definition requests (t : list event) : list (string * doc) :=
  omap (fun e => match e with Get url params => Some (url, params) | Sleep _ => None end) t.

(** The requests of a walk that asks for [n] pages from page [page] on. *)
Fixpoint page_requests (url : string) (params : Z -> doc) (page : Z) (n : nat)
    : list (string * doc) :=
  match n with
  | O => []
  | S n => (url, params page) :: page_requests url params (page + 1) n
  end.

(** The page that ends a walk: empty, or shorter than the page size. *)
Definition is_final (per_page : Z) (data : list doc) : bool :=
  match data with
  | [] => true
  | _ => Z.of_nat (length data) <? per_page
  end.

(** The rate-limit headers of a response are integers where present. *)
Definition headers_ok (r : Response) : Prop :=
  (forall text, headers r !! "X-RateLimit-Remaining" = Some text -> is_Some (py_int text)) /\
  (forall text, headers r !! "X-RateLimit-Reset" = Some text -> is_Some (py_int text)).

(** A response that [_make_request] turns into the value [data]. *)
Definition delivers (r : Response) (data : list doc) : Prop :=
  is_http_error (status_code r) = false /\ headers_ok r /\ json r = Some data.

(** The replies of a server that delivers the given pages one after the
    other. *)
Definition serves (script : list (Q * reply)) (pages : list (list doc)) : Prop :=
  Forall2 (fun x data => exists r, x.2 = Responds r /\ delivers r data) script pages.

(** A reply with the given status and well-formed headers. *)
Definition answers_status (x : Q * reply) (status : Z) : Prop :=
  exists r, x.2 = Responds r /\ status_code r = status /\ headers_ok r.

(** The facts about a finished request that do not depend on the reply:
    one reply is consumed, one request is added, the configuration stays. *)
Definition one_request (endpoint : string) (params : doc)
    (self : GitHubAPIClient) (net : Network) (rest : list (Q * reply))
    (self' : GitHubAPIClient) (net' : Network) : Prop :=
  pending net' = rest /\
  requests (trace net')
    = requests (trace net) ++ [(base_url (config self) +:+ endpoint, params)] /\
  config self' = config self.

(** A client and replies for the examples. *)
Definition sample_config : GitHubConfig :=
  {| token := "secret"; base_url := "https://api.github.com"; requests_per_hour := 5000 |}.

Definition limit_headers : gmap string string :=
  {["X-RateLimit-Remaining" := "4999"; "X-RateLimit-Reset" := "1700003600"]}.

Definition reply_with (status : Z) (body : option (list doc)) : Q * reply :=
  ((1 # 2)%Q,
   Responds {| status_code := status; headers := limit_headers; json := body |}).

Definition sample_network (script : list (Q * reply)) : Network :=
  {| now := inject_Z 1700000000; pending := script; trace := [] |}.

Definition sample_client : GitHubAPIClient := __init__ sample_config (sample_network []).

Definition commit_a : doc := {["sha" := VStr "a1"]}.
Definition commit_b : doc := {["sha" := VStr "b2"]}.

End GitHub.

(** ** GitHubDataCollector *)

Module Collector.
Import Mongo GitHub.

(** What a collection run acts on. *)
Record World := {
  client : GitHubAPIClient;
  network : Network;
  manager : MongoDBManager }.

(** A step of the run: [None] when the replies or the iterations run out,
    otherwise the world after the step with its value or its exception. *)
Definition run (A : Type) : Type := World -> option (World * result A).

#[global] Instance run_ret : MRet run := fun A a w => Some (w, Ok a).

#[global] Instance run_bind : MBind run := fun A B k m w =>
  match m w with
  | None => None
  | Some (w, Raise e) => Some (w, Raise e)
  | Some (w, Ok a) => k a w
  end.

Definition call_client {A} (f : GitHubAPIClient -> Network -> answer A) : run A :=
  fun w =>
    match f (client w) (network w) with
    | None => None
    | Some (c, n, r) => Some ({| client := c; network := n; manager := manager w |}, r)
    end.

(** A store call gives back the records as it leaves them and the list it
    returns. *)
Definition call_store (f : MongoDBManager -> outcome) : run (list doc * list value) :=
  fun w =>
    let '(m, records, r) := f (manager w) in
    Some ({| client := client w; network := network w; manager := m |},
          match r with
          | Ok keys => Ok (records, keys)
          | Raise e => Raise e
          end).

(** [d[k]] *)
Definition getitem (d : doc) (k : string) : run value :=
  fun w =>
    match d !! k with
    | Some v => Some (w, Ok v)
    | None => Some (w, Raise (KeyError k))
    end.

Fixpoint for_each {A} (l : list A) (body : A -> run unit) : run unit :=
  match l with
  | [] => mret tt
  | a :: l => body a ;; for_each l body
  end.

Section Collect.

Variable utcnow : nat -> Z.
Variable py_str : value -> string.

(** The two comment endpoints; the number is formatted into the path. *)
Definition get_issue_comments (owner repo : string) (issue_number : value)
    (self : GitHubAPIClient) (net : Network) : answer (list doc) :=
  _make_request
    ("/repos/" +:+ owner +:+ "/" +:+ repo +:+ "/issues/" +:+ py_str issue_number
     +:+ "/comments") ∅ self net.

Definition get_pr_comments (owner repo : string) (pr_number : value)
    (self : GitHubAPIClient) (net : Network) : answer (list doc) :=
  _make_request
    ("/repos/" +:+ owner +:+ "/" +:+ repo +:+ "/pulls/" +:+ py_str pr_number
     +:+ "/comments") ∅ self net.

(** The body of the loop over the repositories. *)
Definition collect_repository (fuel : nat) (owner : string) (include_comments : bool)
    (repo : doc) : run unit :=
  repo_name ← getitem repo "name";
  repo_id ← getitem repo "id";
  let repo_name := py_str repo_name in
  commits ← call_client (get_commits fuel owner repo_name 100);
  call_store (store_commits utcnow repo_id commits);;
  contributors ← call_client (get_contributors owner repo_name);
  call_store (store_contributors utcnow repo_id contributors);;
  pull_requests ← call_client (get_pull_requests fuel owner repo_name "all");
  prs ← call_store (store_pull_requests utcnow repo_id pull_requests);
  issues ← call_client (get_issues fuel owner repo_name "all");
  iss ← call_store (store_issues utcnow repo_id issues);
  if include_comments then
    for_each iss.2 (fun issue_number =>
      comments ← call_client (get_issue_comments owner repo_name issue_number);
      call_store (store_comments utcnow repo_id comments issue_number VNull);;
      mret tt);;
    for_each prs.2 (fun pr_number =>
      comments ← call_client (get_pr_comments owner repo_name pr_number);
      call_store (store_comments utcnow repo_id comments VNull pr_number);;
      mret tt)
  else mret tt.

Definition collect_all_data (fuel : nat) (owner : string) (include_comments : bool)
    : run unit :=
  repositories ← call_client (get_repositories fuel owner 100);
  stored ← call_store (store_repositories utcnow py_str repositories);
  for_each stored.1 (collect_repository fuel owner include_comments).

End Collect.

(** One owner with one repository: two commits, one contributor, one pull
    request, which the issue list shows as well, and one issue with two
    comments. *)
Definition hello_world : doc := {["id" := VInt 1296269; "name" := VStr "Hello-World"]}.
Definition octocat : doc := {["login" := VStr "octocat"]}.
Definition pull_2 : doc := {["id" := VInt 501; "number" := VInt 2]}.
Definition issue_1 : doc := {["id" := VInt 401; "number" := VInt 1]}.
Definition pull_2_as_issue : doc :=
  {["id" := VInt 402; "number" := VInt 2; "pull_request" := VObj []]}.
Definition comment_10 : doc := {["id" := VInt 10]}.
Definition comment_11 : doc := {["id" := VInt 11]}.

Definition scenario : list (Q * reply) :=
  [ reply_with 200 (Some [hello_world]);
    reply_with 200 (Some [commit_a; commit_b]);
    reply_with 200 (Some [octocat]);
    reply_with 200 (Some [pull_2]);
    reply_with 200 (Some [issue_1; pull_2_as_issue]);
    reply_with 200 (Some [comment_10; comment_11]);
    reply_with 200 (Some []) ].

Definition scenario_world : World :=
  {| client := sample_client;
     network := sample_network scenario;
     manager := fresh_manager |}.

End Collector.

(** ** Properties of the store *)

Module MongoProps.
Import Mongo.

(** *** The upsert on one collection *)

Section Upsert.

Implicit Types (flt upd d : doc) (c : list doc) (w : write).

Lemma matches_spec flt d : matches flt d = true <-> flt ⊆ d.
Proof. unfold matches. apply bool_decide_eq_true. Qed.

Lemma matches_false flt d : matches flt d = false <-> ¬ flt ⊆ d.
Proof. unfold matches. apply bool_decide_eq_false. Qed.

(** An update whose own filter matched leaves the document's key fields as
    they were: another filter on the same fields sees no difference. *)
Lemma subseteq_merge flt flt' upd d :
  dom flt = dom flt' -> flt' ⊆ d -> flt' ⊆ upd ->
  flt ⊆ upd ∪ d <-> flt ⊆ d.
Proof.
  intros Hdom Hd Hu.
  rewrite !map_subseteq_spec.
  assert (Hkey : forall k v, flt !! k = Some v ->
            exists v', d !! k = Some v' /\ upd !! k = Some v').
  { intros k v Hk.
    assert (is_Some (flt' !! k)) as [v' Hv'].
    { apply elem_of_dom. rewrite <- Hdom. apply elem_of_dom. eauto. }
    exists v'. split.
    - exact (lookup_weaken _ _ _ _ Hv' Hd).
    - exact (lookup_weaken _ _ _ _ Hv' Hu). }
  split; intros H k v Hk; specialize (H k v Hk);
    destruct (Hkey k v Hk) as (v' & Hdk & Huk).
  - rewrite (lookup_union_Some_l upd d k v' Huk) in H. congruence.
  - rewrite (lookup_union_Some_l upd d k v' Huk). congruence.
Qed.

Lemma subseteq_same_dom flt flt' d :
  dom flt = dom flt' -> flt ⊆ d -> flt' ⊆ d -> flt = flt'.
Proof.
  intros Hdom H1 H2. apply map_eq. intros k.
  destruct (flt !! k) as [v|] eqn:E1.
  - assert (is_Some (flt' !! k)) as [v' Hv'].
    { apply elem_of_dom. rewrite <- Hdom. apply elem_of_dom. eauto. }
    rewrite Hv'. f_equal.
    pose proof (lookup_weaken _ _ _ _ E1 H1).
    pose proof (lookup_weaken _ _ _ _ Hv' H2). congruence.
  - symmetry. apply not_elem_of_dom. rewrite <- Hdom. by apply not_elem_of_dom.
Qed.

Lemma upsert_cons_hit flt upd d c :
  flt ⊆ d -> upsert flt upd (d :: c) = (upd ∪ d) :: c.
Proof.
  intros H. unfold upsert. cbn. apply matches_spec in H. by rewrite H.
Qed.

Lemma upsert_cons_miss flt upd d c :
  ¬ flt ⊆ d -> upsert flt upd (d :: c) = d :: upsert flt upd c.
Proof.
  intros H. unfold upsert. cbn. apply matches_false in H. rewrite H.
  by destruct (update_first flt upd c).
Qed.

Lemma upsert_nil flt upd : upsert flt upd [] = [upd ∪ flt].
Proof. reflexivity. Qed.

Lemma upsert_app_hit flt upd c t :
  has_match flt c -> upsert flt upd (c ++ t) = upsert flt upd c ++ t.
Proof.
  induction 1 as [d c Hd|d c Hc IH].
  - cbn [app]. by rewrite !upsert_cons_hit.
  - destruct (decide (flt ⊆ d)) as [Hd|Hd]; cbn [app].
    + by rewrite !upsert_cons_hit.
    + rewrite !upsert_cons_miss by done. by rewrite IH.
Qed.

Lemma upsert_app_miss flt upd c t :
  ¬ has_match flt c -> upsert flt upd (c ++ t) = c ++ upsert flt upd t.
Proof.
  unfold has_match. induction c as [|d c IH]; intros H; [done|].
  cbn [app]. rewrite upsert_cons_miss.
  - rewrite IH; [done|]. intros ?. apply H. by constructor.
  - intros ?. apply H. by constructor.
Qed.

Lemma upsert_miss flt upd c :
  ¬ has_match flt c -> upsert flt upd c = c ++ [upd ∪ flt].
Proof.
  intros H. rewrite <- (app_nil_r c) at 1.
  by rewrite upsert_app_miss.
Qed.

Lemma union_absorb_r (upd flt : doc) : flt ⊆ upd -> upd ∪ flt = upd.
Proof.
  intros H. apply map_eq. intros k.
  destruct (upd !! k) as [v|] eqn:E.
  - by apply lookup_union_Some_l.
  - apply lookup_union_None. split; [done|].
    destruct (flt !! k) as [v|] eqn:E'; [|done].
    pose proof (lookup_weaken _ _ _ _ E' H). congruence.
Qed.

Lemma subseteq_union_l (flt upd d : doc) : flt ⊆ upd -> flt ⊆ upd ∪ d.
Proof.
  intros H. etrans; [exact H|]. apply map_union_subseteq_l.
Qed.

(** After the call a document matches the filter. *)
Lemma upsert_has_match flt upd c :
  flt ⊆ upd -> has_match flt (upsert flt upd c).
Proof.
  intros H. unfold has_match. induction c as [|d c IH].
  - rewrite upsert_nil. constructor. by apply subseteq_union_l.
  - destruct (decide (flt ⊆ d)) as [Hd|Hd].
    + rewrite upsert_cons_hit by done. constructor. by apply subseteq_union_l.
    + rewrite upsert_cons_miss by done. by constructor.
Qed.

(** A document that matched a filter on the same fields still does. *)
Lemma upsert_keeps_match flt fp up c :
  dom flt = dom fp -> fp ⊆ up ->
  has_match flt c -> has_match flt (upsert fp up c).
Proof.
  intros Hdom Hup. unfold has_match. induction 1 as [d c Hd|d c Hc IH].
  - destruct (decide (fp ⊆ d)) as [Hp|Hp].
    + rewrite upsert_cons_hit by done. constructor.
      by apply (subseteq_merge flt fp up d).
    + rewrite upsert_cons_miss by done. by constructor.
  - destruct (decide (fp ⊆ d)) as [Hp|Hp].
    + rewrite upsert_cons_hit by done. by apply Exists_cons_tl.
    + rewrite upsert_cons_miss by done. by apply Exists_cons_tl.
Qed.

Lemma eq_upto_refl flt upd c : eq_upto flt upd c c.
Proof.
  induction c as [|d c IH]; [constructor|].
  destruct (decide (flt ⊆ d)); [by apply eq_upto_hit | by apply eq_upto_skip].
Qed.

Lemma eq_upto_upsert flt upd c1 c2 :
  eq_upto flt upd c1 c2 -> upsert flt upd c1 = upsert flt upd c2.
Proof.
  induction 1 as [|d l1 l2 Hd _ IH|d1 d2 l H1 H2 Heq].
  - done.
  - rewrite !upsert_cons_miss by done. by rewrite IH.
  - rewrite !upsert_cons_hit by done. by rewrite Heq.
Qed.

Lemma eq_upto_self flt upd c :
  flt ⊆ upd -> has_match flt c -> eq_upto flt upd (upsert flt upd c) c.
Proof.
  intros Hu. induction 1 as [d c Hd|d c Hc IH].
  - rewrite upsert_cons_hit by done. apply eq_upto_hit; [|done|].
    + by apply subseteq_union_l.
    + by rewrite (assoc_L (∪)), (idemp_L (∪)).
  - destruct (decide (flt ⊆ d)) as [Hd|Hd].
    + rewrite upsert_cons_hit by done. apply eq_upto_hit; [|done|].
      * by apply subseteq_union_l.
      * by rewrite (assoc_L (∪)), (idemp_L (∪)).
    + rewrite upsert_cons_miss by done. by apply eq_upto_skip.
Qed.

Lemma union_cancel_through (upd up d1 d2 : doc) :
  upd ∪ d1 = upd ∪ d2 -> upd ∪ (up ∪ d1) = upd ∪ (up ∪ d2).
Proof.
  intros H. apply map_eq. intros k.
  assert (Hk : (upd ∪ d1) !! k = (upd ∪ d2) !! k) by by rewrite H.
  repeat rewrite lookup_union in Hk. repeat rewrite lookup_union.
  destruct (upd !! k), (up !! k), (d1 !! k), (d2 !! k); cbn in *; congruence.
Qed.

(** Another write on the same key fields keeps the two collections in the
    relation. *)
Lemma eq_upto_step flt upd fp up c1 c2 :
  dom fp = dom flt -> fp ⊆ up ->
  eq_upto flt upd c1 c2 -> eq_upto flt upd (upsert fp up c1) (upsert fp up c2).
Proof.
  intros Hdom Hup. induction 1 as [|d l1 l2 Hd H12 IH|d1 d2 l H1 H2 Heq].
  - apply eq_upto_refl.
  - destruct (decide (fp ⊆ d)) as [Hp|Hp].
    + rewrite !upsert_cons_hit by done. apply eq_upto_skip; [|done].
      by rewrite (subseteq_merge flt fp up d).
    + rewrite !upsert_cons_miss by done. by apply eq_upto_skip.
  - destruct (decide (fp ⊆ d1)) as [Hp|Hp].
    + assert (fp = flt) as -> by (eapply subseteq_same_dom; eauto).
      rewrite !upsert_cons_hit by done. apply eq_upto_hit.
      * by apply (subseteq_merge flt flt up d1).
      * by apply (subseteq_merge flt flt up d2).
      * by apply union_cancel_through.
    + assert (¬ fp ⊆ d2).
      { intros Hp2. apply Hp.
        assert (fp = flt) as -> by (eapply subseteq_same_dom; eauto). done. }
      rewrite !upsert_cons_miss by done. by apply eq_upto_hit.
Qed.

Lemma upsert_all_snoc ws w c :
  upsert_all (ws ++ [w]) c = upsert (w_filter w) (w_set w) (upsert_all ws c).
Proof. unfold upsert_all. by rewrite foldl_app. Qed.

Lemma upsert_all_cons w ws c :
  upsert_all (w :: ws) c = upsert_all ws (upsert (w_filter w) (w_set w) c).
Proof. reflexivity. Qed.

Lemma eq_upto_upsert_all K flt upd ws c1 c2 :
  dom flt = K -> Forall (keyed K) ws ->
  eq_upto flt upd c1 c2 ->
  eq_upto flt upd (upsert_all ws c1) (upsert_all ws c2).
Proof.
  intros Hdom Hws. revert c1 c2.
  induction Hws as [|w ws [Hw1 Hw2] _ IH]; intros c1 c2 H; [done|].
  rewrite !upsert_all_cons. apply IH. apply eq_upto_step; [congruence|done|done].
Qed.

Lemma upsert_all_keeps_match K flt ws c :
  dom flt = K -> Forall (keyed K) ws ->
  has_match flt c -> has_match flt (upsert_all ws c).
Proof.
  intros Hdom Hws. revert c.
  induction Hws as [|w ws [Hw1 Hw2] _ IH]; intros c H; [done|].
  rewrite upsert_all_cons. apply IH.
  apply upsert_keeps_match; [congruence|done|done].
Qed.

(** After the writes every filter of the list has a match. *)
Lemma upsert_all_covers K ws c :
  Forall (keyed K) ws ->
  Forall (fun w => has_match (w_filter w) (upsert_all ws c)) ws.
Proof.
  intros Hws. revert c.
  induction Hws as [|w ws [Hw1 Hw2] Hws IH]; intros c; [constructor|].
  rewrite upsert_all_cons. constructor; [|apply IH].
  apply (upsert_all_keeps_match K); [done|done|].
  by apply upsert_has_match.
Qed.

(** Writes that all find their document never reach what is appended. *)
Lemma upsert_all_app K ws c t :
  Forall (keyed K) ws ->
  Forall (fun w => has_match (w_filter w) c) ws ->
  upsert_all ws (c ++ t) = upsert_all ws c ++ t.
Proof.
  intros Hws. revert c.
  induction Hws as [|w ws [Hw1 Hw2] Hws IH]; intros c Hc; [done|].
  apply Forall_cons in Hc as [Hw Hc].
  rewrite !upsert_all_cons, upsert_app_hit by done.
  apply IH. rewrite Forall_forall in Hws, Hc |- *.
  intros w' Hw'. destruct (Hws w' Hw') as [Hd' _].
  apply upsert_keeps_match; [congruence|done|by apply Hc].
Qed.

(** Sending the same writes a second time changes nothing. *)
Lemma upsert_all_idempotent K ws c :
  Forall (keyed K) ws ->
  upsert_all ws (upsert_all ws c) = upsert_all ws c.
Proof.
  revert c. induction ws as [|w ws IH] using rev_ind; intros c Hws; [done|].
  apply Forall_app in Hws as [Hws Hw].
  rewrite Forall_singleton in Hw. destruct Hw as [Hw1 Hw2].
  rewrite !upsert_all_snoc.
  set (z := upsert_all ws c).
  assert (Hz : upsert_all ws z = z) by (by apply IH).
  assert (Hcov : Forall (fun w' => has_match (w_filter w') z) ws)
    by (by apply (upsert_all_covers K)).
  destruct (decide (has_match (w_filter w) z)) as [Hm|Hm].
  - rewrite (eq_upto_upsert _ _ _ (upsert_all ws z)).
    + by rewrite Hz.
    + apply (eq_upto_upsert_all K); [done|done|].
      by apply eq_upto_self.
  - rewrite (upsert_miss _ _ z) by done.
    rewrite (upsert_all_app K) by done.
    rewrite Hz, upsert_app_miss by done.
    rewrite upsert_cons_hit.
    + by rewrite (assoc_L (∪)), (idemp_L (∪)).
    + rewrite union_absorb_r by done. done.
Qed.



(** *** Timestamps taken off *)

Lemma strip_union (a b : doc) : strip (a ∪ b) = strip a ∪ strip b.
Proof. unfold strip. apply delete_union. Qed.

Lemma strip_notin (flt : doc) : "collected_at" ∉ dom flt -> strip flt = flt.
Proof. intros H. unfold strip. apply delete_id. by apply not_elem_of_dom. Qed.

Lemma subseteq_strip (flt d : doc) :
  "collected_at" ∉ dom flt -> flt ⊆ strip d <-> flt ⊆ d.
Proof.
  intros H. split; intros Hs.
  - etrans; [exact Hs|]. apply delete_subseteq.
  - rewrite <- (strip_notin flt H). unfold strip. by apply delete_mono.
Qed.

Lemma strip_upsert flt upd c :
  "collected_at" ∉ dom flt ->
  strip <$> upsert flt upd c = upsert flt (strip upd) (strip <$> c).
Proof.
  intros H. induction c as [|d c IH].
  - rewrite !upsert_nil. cbn. by rewrite strip_union, (strip_notin flt).
  - destruct (decide (flt ⊆ d)) as [Hd|Hd].
    + rewrite fmap_cons, !upsert_cons_hit; [|by apply subseteq_strip|done].
      by rewrite fmap_cons, strip_union.
    + rewrite fmap_cons, !upsert_cons_miss; [|by rewrite subseteq_strip|done].
      by rewrite fmap_cons, IH.
Qed.

Lemma strip_upsert_all ws c :
  Forall (fun w => "collected_at" ∉ dom (w_filter w)) ws ->
  strip <$> upsert_all ws c = upsert_all (strip_write <$> ws) (strip <$> c).
Proof.
  intros H. revert c. induction H as [|w ws Hw _ IH]; intros c; [done|].
  rewrite fmap_cons, !upsert_all_cons, IH. cbn. by rewrite strip_upsert.
Qed.

Lemma keyed_strip K w :
  "collected_at" ∉ K -> keyed K w -> keyed K (strip_write w).
Proof.
  intros HK [H1 H2]. split; cbn; [done|].
  apply subseteq_strip; [by rewrite H1|done].
Qed.

(** Stored twice, a list of writes leaves what it left the first time, up
    to the timestamps; the second list may carry other timestamps. *)
Lemma upsert_all_twice K ws ws' c :
  "collected_at" ∉ K -> Forall (keyed K) ws -> Forall (keyed K) ws' ->
  strip_write <$> ws' = strip_write <$> ws ->
  strip <$> upsert_all ws' (upsert_all ws c) = strip <$> upsert_all ws c.
Proof.
  intros HK Hws Hws' Heq.
  assert (Hno : forall l, Forall (keyed K) l ->
            Forall (fun w => "collected_at" ∉ dom (w_filter w)) l).
  { intros l Hl. eapply Forall_impl; [exact Hl|]. intros w [-> _]. done. }
  rewrite strip_upsert_all by auto.
  rewrite (strip_upsert_all ws) by auto.
  rewrite Heq. apply (upsert_all_idempotent K).
  apply Forall_fmap. eapply Forall_impl; [exact Hws|].
  intros w Hw. by apply keyed_strip.
Qed.


(** *** Timestamps kept *)







(** After the call a document of the collection holds every field sent. *)
Lemma upsert_written flt upd c :
  exists d, d ∈ upsert flt upd c /\ upd ⊆ d.
Proof.
  induction c as [|d0 c IH].
  - exists (upd ∪ flt). rewrite upsert_nil. split.
    + by apply list_elem_of_singleton.
    + apply map_union_subseteq_l.
  - destruct (decide (flt ⊆ d0)) as [Hd|Hd].
    + rewrite upsert_cons_hit by done. exists (upd ∪ d0). split.
      * by apply elem_of_cons; left.
      * apply map_union_subseteq_l.
    + rewrite upsert_cons_miss by done. destruct IH as (d & Hin & Hsub).
      exists d. split; [by apply elem_of_cons; right|done].
Qed.


End Upsert.

(** *** Injected fields and filters *)

Section Fields.

Implicit Types (d r : doc) (L : list (string * value)) (keys : list string).

Lemma inject_union L d : inject L d = inject L ∅ ∪ d.
Proof.
  revert d. induction L as [|[k v] L IH]; intros d.
  - cbn. by rewrite (left_id_L ∅ (∪)).
  - cbn [inject foldl fst snd]. fold (inject L (<[k:=v]> d)).
    fold (inject L (<[k:=v]> (∅ : doc))).
    rewrite IH, (IH (<[k:=v]> ∅)), <- (assoc_L (∪)).
    by rewrite insert_empty, <- insert_union_singleton_l.
Qed.

Lemma inject_inject L d : inject L (inject L d) = inject L d.
Proof.
  rewrite (inject_union L (inject L d)), (inject_union L d).
  by rewrite (assoc_L (∪)), (idemp_L (∪)).
Qed.

Lemma inject_lookup_notin L d k :
  k ∉ L.*1 -> inject L d !! k = d !! k.
Proof.
  revert d. induction L as [|[k' v] L IH]; intros d Hk; [done|].
  cbn [inject foldl fst snd]. fold (inject L (<[k':=v]> d)).
  rewrite fmap_cons in Hk. apply not_elem_of_cons in Hk as [Hne Hk].
  rewrite IH by done. by rewrite lookup_insert_ne.
Qed.

Lemma strip_inject L d :
  "collected_at" ∉ L.*1 -> strip (inject L d) = inject L (strip d).
Proof.
  revert d. induction L as [|[k' v] L IH]; intros d Hk; [done|].
  cbn [inject foldl fst snd]. fold (inject L (<[k':=v]> d)).
  fold (inject L (<[k':=v]> (strip d))).
  rewrite fmap_cons in Hk. apply not_elem_of_cons in Hk as [Hne Hk].
  rewrite IH by done. unfold strip. by rewrite delete_insert_ne.
Qed.

Lemma strip_stamp t d : strip (<["collected_at" := VTime t]> d) = strip d.
Proof. unfold strip. apply delete_insert_eq. Qed.

Lemma strip_prepare s t r :
  spec_ok s -> strip (prepare s t r) = inject (ls_inject s) (strip r).
Proof.
  intros Hs. unfold prepare.
  rewrite strip_inject by apply Hs. by rewrite strip_stamp.
Qed.

Lemma prepare_stamp s t r :
  spec_ok s -> prepare s t r !! "collected_at" = Some (VTime t).
Proof.
  intros Hs. unfold prepare.
  rewrite inject_lookup_notin by apply Hs. apply lookup_insert_eq.
Qed.

Lemma project_ok keys d f :
  project keys d = Ok f -> dom f = list_to_set keys /\ f ⊆ d.
Proof.
  revert f. induction keys as [|k keys IH]; intros f H; cbn in H.
  - simplify_eq. split; [by rewrite dom_empty_L|apply map_empty_subseteq].
  - destruct (d !! k) as [v|] eqn:E; [|done].
    destruct (project keys d) as [f'|] eqn:E'; [|done].
    simplify_eq. destruct (IH f' eq_refl) as [Hd Hf]. split.
    + rewrite dom_insert_L, Hd. done.
    + by apply insert_subseteq_l.
Qed.

Lemma project_strip keys d :
  "collected_at" ∉ keys -> project keys (strip d) = project keys d.
Proof.
  induction keys as [|k keys IH]; intros H; [done|].
  apply not_elem_of_cons in H as [Hne Hk]. cbn.
  unfold strip at 1. rewrite lookup_delete_ne by done.
  by rewrite IH.
Qed.

Lemma project_same keys d d' :
  "collected_at" ∉ keys -> strip d = strip d' -> project keys d = project keys d'.
Proof.
  intros H E. by rewrite <- (project_strip keys d), <- (project_strip keys d'), E.
Qed.

Lemma lookup_same k d d' :
  k ≠ "collected_at" -> strip d = strip d' -> d !! k = d' !! k.
Proof.
  intros H E.
  rewrite <- (lookup_delete_ne d "collected_at" k) by done.
  rewrite <- (lookup_delete_ne d' "collected_at" k) by done.
  unfold strip in E. by rewrite E.
Qed.

End Fields.

Section Loops.

Variable utcnow : nat -> Z.
Variable py_str : value -> string.

(** Each method is its loop shape. *)

Ltac loop_shape IH :=
  cbn [store_repositories_loop store_commits_loop store_contributors_loop
       store_pull_requests_loop store_issues_loop store_comments_loop
       run_loop call_spec ls_skip ls_inject ls_keys
       ls_ret ls_coll ls_conv inject foldl project _add_timestamp fst snd];
  repeat match goal with
  | |- context [match ?d !! ?k with _ => _ end] =>
      lazymatch d with
      | context [match _ with _ => _ end] => fail
      | _ => destruct (d !! k) eqn:?
      end
  end;
  simplify_map_eq; rewrite ?insert_empty, ?IH; try reflexivity.

Lemma store_repositories_loop_shape l0 l acc self :
  store_repositories_loop utcnow py_str l acc self
  = run_loop utcnow (call_spec py_str (StoreRepositories l0)) l acc self.
Proof.
  revert acc self.
  induction l as [|r l IH]; intros acc self; [reflexivity|].
  loop_shape IH.
Qed.

Lemma store_commits_loop_shape rid l0 l acc self :
  store_commits_loop utcnow rid l acc self
  = run_loop utcnow (call_spec py_str (StoreCommits rid l0)) l acc self.
Proof.
  revert acc self.
  induction l as [|r l IH]; intros acc self; [reflexivity|].
  loop_shape IH.
Qed.

Lemma store_contributors_loop_shape rid l0 l acc self :
  store_contributors_loop utcnow rid l acc self
  = run_loop utcnow (call_spec py_str (StoreContributors rid l0)) l acc self.
Proof.
  revert acc self.
  induction l as [|r l IH]; intros acc self; [reflexivity|].
  loop_shape IH.
Qed.

Lemma store_pull_requests_loop_shape rid l0 l acc self :
  store_pull_requests_loop utcnow rid l acc self
  = run_loop utcnow (call_spec py_str (StorePullRequests rid l0)) l acc self.
Proof.
  revert acc self.
  induction l as [|r l IH]; intros acc self; [reflexivity|].
  loop_shape IH.
Qed.

Lemma store_issues_loop_shape rid l0 l acc self :
  store_issues_loop utcnow rid l acc self
  = run_loop utcnow (call_spec py_str (StoreIssues rid l0)) l acc self.
Proof.
  revert acc self.
  induction l as [|r l IH]; intros acc self; [reflexivity|].
  cbn [store_issues_loop run_loop call_spec ls_skip].
  destruct (has_pull_request r); [rewrite IH; reflexivity|].
  loop_shape IH.
Qed.

Lemma store_comments_loop_shape rid i p l0 l acc self :
  store_comments_loop utcnow rid l i p acc self
  = run_loop utcnow (call_spec py_str (StoreComments rid l0 i p)) l acc self.
Proof.
  unfold call_spec, comment_links.
  destruct (truthy i) eqn:Hi, (truthy p) eqn:Hp; cbn [app];
    revert acc self;
    (induction l as [|r l IH]; intros acc self; [reflexivity|]);
    cbn [store_comments_loop run_loop ls_skip ls_inject ls_keys ls_ret
         ls_coll ls_conv _add_timestamp inject foldl fst snd project];
    rewrite ?Hi, ?Hp;
    (destruct (_ !! "id") eqn:E; [|reflexivity]);
    rewrite insert_empty, IH; reflexivity.
Qed.

Lemma run_call_shape c self :
  run_call utcnow py_str c self
  = run_spec utcnow (call_spec py_str c) (call_records c) self.
Proof.
  destruct c as [l|rid l|rid l|rid l|rid l|rid l i p];
    cbn [run_call call_records]; unfold run_spec.
  - unfold store_repositories. destruct l; [reflexivity|].
    apply store_repositories_loop_shape.
  - unfold store_commits. destruct l; [reflexivity|].
    apply store_commits_loop_shape.
  - unfold store_contributors. destruct l; [reflexivity|].
    apply store_contributors_loop_shape.
  - unfold store_pull_requests. destruct l; [reflexivity|].
    apply store_pull_requests_loop_shape.
  - unfold store_issues. destruct l; [reflexivity|].
    apply store_issues_loop_shape.
  - unfold store_comments. destruct l; [reflexivity|].
    apply store_comments_loop_shape.
Qed.

(** *** Collections of the database *)

Lemma get_set_same c l d : get_collection c (set_collection c l d) = l.
Proof. by destruct c. Qed.

Lemma get_set_other c c' l d :
  c ≠ c' -> get_collection c' (set_collection c l d) = get_collection c' d.
Proof. by destruct c, c'. Qed.

Lemma apply_writes_same c ws d :
  Forall (fun w => w_coll w = c) ws ->
  get_collection c (apply_writes ws d) = upsert_all ws (get_collection c d).
Proof.
  intros H. revert d. induction H as [|w ws Hw _ IH]; intros d; [done|].
  cbn. fold (apply_writes ws (apply_write w d)).
  fold (upsert_all ws (upsert (w_filter w) (w_set w) (get_collection c d))).
  rewrite IH. unfold apply_write. by rewrite Hw, get_set_same.
Qed.

Lemma apply_writes_other c c' ws d :
  c ≠ c' -> Forall (fun w => w_coll w = c) ws ->
  get_collection c' (apply_writes ws d) = get_collection c' d.
Proof.
  intros Hne H. revert d. induction H as [|w ws Hw _ IH]; intros d; [done|].
  cbn. fold (apply_writes ws (apply_write w d)).
  rewrite IH. unfold apply_write. by rewrite Hw, get_set_other.
Qed.

(** *** What a loop sends *)

Lemma plan_keyed s n recs : Forall (keyed (key_set s)) (plan utcnow s n recs).
Proof.
  revert n. induction recs as [|r recs IH]; intros n; cbn; [constructor|].
  destruct (ls_skip s r); [apply IH|].
  destruct (project _ _) as [f|] eqn:E; [|constructor].
  apply project_ok in E as [Hd Hf].
  constructor; [by split|]. destruct (_ !! ls_ret s); [apply IH|constructor].
Qed.

Lemma plan_coll s n recs :
  Forall (fun w => w_coll w = ls_coll s) (plan utcnow s n recs).
Proof.
  revert n. induction recs as [|r recs IH]; intros n; cbn; [constructor|].
  destruct (ls_skip s r); [apply IH|].
  destruct (project _ _) as [f|] eqn:E; [|constructor].
  constructor; [done|]. destruct (_ !! ls_ret s); [apply IH|constructor].
Qed.

(** The [j]-th write of a loop carries the [j]-th clock reading of the
    call and the injected fields. *)
Lemma plan_lookup s n recs j w :
  plan utcnow s n recs !! j = Some w ->
  exists r, r ∈ recs /\ ls_skip s r = false /\
            w_set w = prepare s (utcnow (n + j)%nat) r /\
            project (ls_keys s) (w_set w) = Ok (w_filter w) /\
            w_coll w = ls_coll s.
Proof.
  revert n j. induction recs as [|r recs IH]; intros n j H; cbn [plan] in H.
  { by rewrite lookup_nil in H. }
  destruct (ls_skip s r) eqn:Hskip.
  - destruct (IH _ _ H) as (r' & Hin & Hrest). exists r'.
    split; [by apply elem_of_cons; right|done].
  - destruct (project (ls_keys s) (prepare s (utcnow n) r)) as [f|] eqn:E;
      [|by rewrite lookup_nil in H].
    destruct j as [|j].
    + cbn in H. simplify_eq. exists r. cbn [w_set w_filter w_coll].
      rewrite Nat.add_0_r. split; [by apply elem_of_cons; left|done].
    + cbn [lookup list_lookup] in H.
      destruct (prepare s (utcnow n) r !! ls_ret s).
      2:{ by destruct j. }
      destruct (IH _ _ H) as (r' & Hin & Hrest). exists r'.
      replace (n + S j)%nat with (S n + j)%nat by lia.
      split; [by apply elem_of_cons; right|done].
Qed.

(** The writes depend on the records and not on the time of the call. *)
Lemma plan_strip s n n' recs recs' :
  spec_ok s ->
  Forall2 (fun r r' => inject (ls_inject s) (strip r') = inject (ls_inject s) (strip r))
    recs recs' ->
  strip_write <$> plan utcnow s n' recs' = strip_write <$> plan utcnow s n recs.
Proof.
  intros Hs H. revert n n'.
  induction H as [|r r' recs recs' Hr _ IH]; intros n n'; [done|].
  cbn [plan]. rewrite (ok_skip s Hs r r' Hr).
  destruct (ls_skip s r); [apply IH|].
  assert (E : strip (prepare s (utcnow n') r') = strip (prepare s (utcnow n) r)).
  { by rewrite !strip_prepare. }
  rewrite (project_same _ _ _ (ok_keys s Hs) E).
  destruct (project _ _) as [f|]; [|done].
  rewrite (lookup_same _ _ _ (ok_ret s Hs) E).
  rewrite !fmap_cons. f_equal.
  - unfold strip_write; cbn [w_coll w_filter w_set]. by rewrite E.
  - destruct (_ !! ls_ret s); [apply IH|done].
Qed.

(** The loop sends its plan and nothing else. *)
Lemma run_loop_plan s recs acc self :
  let self' := (run_loop utcnow s recs acc self).1.1 in
  oplog self' = oplog self ++ plan utcnow s (clock_reads self) recs /\
  db self' = apply_writes (plan utcnow s (clock_reads self) recs) (db self) /\
  (clock_reads self + length (plan utcnow s (clock_reads self) recs)
     <= clock_reads self')%nat.
Proof.
  revert acc self. induction recs as [|r recs IH]; intros acc self.
  - cbn. rewrite app_nil_r. repeat split; lia.
  - cbn [run_loop plan]. destruct (ls_skip s r).
    + specialize (IH acc self).
      destruct (run_loop utcnow s recs acc self) as [[self1 recs1] res]. exact IH.
    + cbn [_add_timestamp]. unfold prepare.
      destruct (project _ _) as [f|] eqn:E.
      2:{ cbn. rewrite app_nil_r. repeat split; lia. }
      destruct (_ !! ls_ret s) as [v|].
      2:{ cbn. repeat split; lia. }
      match goal with |- context [run_loop utcnow s recs ?a ?st] =>
        specialize (IH a st); destruct (run_loop utcnow s recs a st) as [[self1 recs1] res]
      end.
      cbn in IH |- *. destruct IH as (H1 & H2 & H3).
      rewrite H1, H2, <- (assoc_L (++)). split; [done|]. split; [done|].
      cbn [length]. lia.
Qed.

(** The records after the call: untouched, or with the timestamp and the
    injected fields written in. *)
Lemma run_loop_records s recs acc self :
  Forall2 (fun r r' => r' = r \/ exists t, r' = prepare s t r)
    recs (run_loop utcnow s recs acc self).1.2.
Proof.
  revert acc self. induction recs as [|r recs IH]; intros acc self.
  - constructor.
  - cbn [run_loop]. destruct (ls_skip s r).
    + specialize (IH acc self).
      destruct (run_loop utcnow s recs acc self) as [[self1 recs1] res].
      constructor; [by left|exact IH].
    + cbn [_add_timestamp].
      assert (Hrefl : Forall2 (fun r r' : doc => r' = r \/ exists t, r' = prepare s t r)
                        recs recs).
      { apply Forall2_same_length_lookup. split; [done|].
        intros i x y ? ?. left. congruence. }
      destruct (project _ _) as [f|] eqn:E.
      2:{ constructor; [right; by eexists|exact Hrefl]. }
      destruct (_ !! ls_ret s) as [v|].
      2:{ constructor; [right; by eexists|exact Hrefl]. }
      match goal with |- context [run_loop utcnow s recs ?a ?st] =>
        specialize (IH a st); destruct (run_loop utcnow s recs a st) as [[self1 recs1] res]
      end.
      constructor; [right; by eexists|exact IH].
Qed.

Lemma records_same_plan s recs recs' :
  spec_ok s ->
  Forall2 (fun r r' => r' = r \/ exists t, r' = prepare s t r) recs recs' ->
  Forall2 (fun r r' => inject (ls_inject s) (strip r') = inject (ls_inject s) (strip r))
    recs recs'.
Proof.
  intros Hs H. eapply Forall2_impl; [exact H|].
  intros r r' [->|[t ->]]; [done|].
  by rewrite strip_prepare, inject_inject.
Qed.

Lemma call_spec_ok c : spec_ok (call_spec py_str c).
Proof.
  assert (Hpr : forall L r r', "pull_request" ∉ L.*1 ->
            inject L (strip r') = inject L (strip r) ->
            has_pull_request r' = has_pull_request r).
  { intros L r r' HL E. unfold has_pull_request.
    assert (E' : r' !! "pull_request" = r !! "pull_request").
    { rewrite <- (lookup_delete_ne r' "collected_at" "pull_request") by done.
      rewrite <- (lookup_delete_ne r "collected_at" "pull_request") by done.
      fold (strip r') (strip r).
      rewrite <- (inject_lookup_notin L (strip r')) by done.
      rewrite <- (inject_lookup_notin L (strip r)) by done.
      by rewrite E. }
    by rewrite E'. }
  destruct c as [l|rid l|rid l|rid l|rid l|rid l i p]; split;
    cbn [call_spec ls_keys ls_ret ls_inject ls_skip]; try done;
    try (intros r r'; apply Hpr);
    unfold comment_links; try destruct (truthy i); try destruct (truthy p);
    cbn [app fmap list_fmap fst];
    by repeat (first [apply not_elem_of_nil | apply not_elem_of_cons; split; [done|]]).
Qed.

Lemma call_spec_with_records c l :
  call_spec py_str (with_records c l) = call_spec py_str c.
Proof. by destruct c. Qed.

Lemma call_records_with_records c l : call_records (with_records c l) = l.
Proof. by destruct c. Qed.

Lemma run_spec_loop s recs self :
  run_spec utcnow s recs self = run_loop utcnow s recs [] self.
Proof. by destruct recs. Qed.

(** A call sends the plan of its loop. *)
Lemma run_call_plan c self :
  let s := call_spec py_str c in
  let ws := plan utcnow s (clock_reads self) (call_records c) in
  let self' := (run_call utcnow py_str c self).1.1 in
  oplog self' = oplog self ++ ws /\
  db self' = apply_writes ws (db self) /\
  (clock_reads self + length ws <= clock_reads self')%nat.
Proof.
  cbn zeta. rewrite run_call_shape, run_spec_loop. apply run_loop_plan.
Qed.

Lemma run_call_db c self k :
  let s := call_spec py_str c in
  let ws := plan utcnow s (clock_reads self) (call_records c) in
  get_collection k (db (run_call utcnow py_str c self).1.1)
  = if decide (k = ls_coll s) then upsert_all ws (get_collection k (db self))
    else get_collection k (db self).
Proof.
  cbn zeta. destruct (run_call_plan c self) as (_ & -> & _).
  case_decide as Hk.
  - subst k. apply apply_writes_same, plan_coll.
  - apply (apply_writes_other (ls_coll (call_spec py_str c))); [done|apply plan_coll].
Qed.

Lemma run_call_records c self :
  Forall2 (fun r r' => r' = r \/ exists t, r' = prepare (call_spec py_str c) t r)
    (call_records c) (run_call utcnow py_str c self).1.2.
Proof. rewrite run_call_shape, run_spec_loop. apply run_loop_records. Qed.

(** Storing again, whatever the records and the time of the second call, as
    long as the records are those of the first call up to what the first call
    wrote into them. *)
Lemma run_call_again c self recs' k :
  Forall2 (fun r r' => r' = r \/ exists t, r' = prepare (call_spec py_str c) t r)
    (call_records c) recs' ->
  let self1 := (run_call utcnow py_str c self).1.1 in
  strip <$> get_collection k (db (run_call utcnow py_str (with_records c recs') self1).1.1)
  = strip <$> get_collection k (db self1).
Proof.
  intros Hrecs. cbn zeta.
  set (self1 := (run_call utcnow py_str c self).1.1).
  rewrite (run_call_db (with_records c recs') self1 k). cbn zeta.
  rewrite call_spec_with_records, call_records_with_records.
  case_decide as Hk; [|done].
  unfold self1 at 2 3. rewrite (run_call_db c self k). cbn zeta.
  rewrite decide_True by done.
  pose proof (call_spec_ok c) as Hok.
  apply (upsert_all_twice (key_set (call_spec py_str c))).
  - unfold key_set. rewrite elem_of_list_to_set. apply Hok.
  - apply plan_keyed.
  - apply plan_keyed.
  - apply plan_strip; [done|]. by apply records_same_plan.
Qed.

(** *** Skipped records *)

Lemma run_loop_kept s recs acc self :
  (run_loop utcnow s recs acc self).1.1 = (run_loop utcnow s (kept s recs) acc self).1.1 /\
  (run_loop utcnow s recs acc self).2 = (run_loop utcnow s (kept s recs) acc self).2.
Proof.
  revert acc self. induction recs as [|r recs IH]; intros acc self; [done|].
  unfold kept. cbn [List.filter run_loop].
  destruct (ls_skip s r) eqn:Hskip; cbn [negb].
  - specialize (IH acc self). fold (kept s recs).
    destruct (run_loop utcnow s recs acc self) as [[? ?] ?].
    destruct (run_loop utcnow s (kept s recs) acc self) as [[? ?] ?]. exact IH.
  - cbn [run_loop]. rewrite Hskip. fold (kept s recs).
    destruct (_add_timestamp utcnow r self) as [self1 r1].
    destruct (project _ _) as [f|]; [|done].
    destruct (_ !! ls_ret s) as [v|]; [|done].
    match goal with |- context [run_loop utcnow s recs ?a ?st] =>
      specialize (IH a st);
      destruct (run_loop utcnow s recs a st) as [[? ?] ?];
      destruct (run_loop utcnow s (kept s recs) a st) as [[? ?] ?]
    end.
    exact IH.
Qed.

(** The returned list: one entry for each record that is not skipped, in
    order, read from the record as it is written. *)
Lemma run_loop_keys s recs acc self keys :
  (run_loop utcnow s recs acc self).2 = Ok keys ->
  exists news, keys = acc ++ news /\
    Forall2 (fun k r => exists t v, prepare s t r !! ls_ret s = Some v /\ k = ls_conv s v)
      news (kept s recs).
Proof.
  revert acc self. induction recs as [|r recs IH]; intros acc self H.
  - cbn in H. simplify_eq. exists []. by rewrite app_nil_r.
  - unfold kept. cbn [List.filter]. cbn [run_loop] in H.
    destruct (ls_skip s r) eqn:Hskip; cbn [negb].
    + apply (IH acc self).
      destruct (run_loop utcnow s recs acc self) as [[? ?] ?]. exact H.
    + cbn [_add_timestamp] in H.
      destruct (project _ _) as [f|]; [|done].
      fold (prepare s (utcnow (clock_reads self)) r) in H.
      destruct (prepare s (utcnow (clock_reads self)) r !! ls_ret s) as [v|] eqn:Ev;
        [|done].
      match type of H with context [run_loop utcnow s recs ?a ?st] =>
        specialize (IH a st);
        destruct (run_loop utcnow s recs a st) as [[? ?] ?]
      end.
      destruct (IH H) as (news & -> & Hnews).
      exists (ls_conv s v :: news). split; [by rewrite <- (assoc_L (++))|].
      constructor; [|exact Hnews]. eauto.
Qed.

Lemma plan_length_kept s n recs :
  (length (plan utcnow s n recs) <= length (kept s recs))%nat.
Proof.
  revert n. induction recs as [|r recs IH]; intros n; [done|].
  unfold kept. cbn [plan List.filter]. fold (kept s recs).
  destruct (ls_skip s r); cbn [negb]; [apply IH|].
  destruct (project _ _); cbn [length]; [|lia].
  destruct (_ !! ls_ret s); cbn [length]; [|lia].
  specialize (IH (S n)). lia.
Qed.

Lemma has_pull_request_false r :
  has_pull_request r = false -> r !! "pull_request" = None.
Proof.
  unfold has_pull_request. intros H%bool_decide_eq_false.
  destruct (r !! "pull_request"); [|done]. destruct H. eauto.
Qed.

(** C3. For every list given to [store_issues], the records that carry
    the ['pull_request'] key are left out of everything the call does: the
    manager after the call and the value returned are those of the call on
    the list without these records; no [update_one] is sent for a record with
    the marker, and at most one for each record without; the returned list
    holds the ['number'] of the records without the marker, one entry each,
    in order, and nothing else. *)
Theorem store_issues_skips_pull_requests (repository_id : value)
    (issues : list doc) (self : MongoDBManager) :
  let out := store_issues utcnow repository_id issues self in
  let out' := store_issues utcnow repository_id (true_issues issues) self in
  out.1.1 = out'.1.1 /\ out.2 = out'.2 /\
  (exists ws, oplog out.1.1 = oplog self ++ ws /\
     (length ws <= length (true_issues issues))%nat /\
     Forall (fun w => w_coll w = Issues /\ w_set w !! "pull_request" = None) ws) /\
  (forall keys, out.2 = Ok keys ->
     Forall2 (fun k issue => issue !! "number" = Some k) keys (true_issues issues)).
Proof.
  cbn zeta.
  change (store_issues utcnow repository_id issues self)
    with (run_call utcnow py_str (StoreIssues repository_id issues) self).
  change (store_issues utcnow repository_id (true_issues issues) self)
    with (run_call utcnow py_str (StoreIssues repository_id (true_issues issues)) self).
  set (s := call_spec py_str (StoreIssues repository_id issues)).
  assert (Hkept : true_issues issues = kept s issues) by reflexivity.
  repeat split.
  - rewrite !run_call_shape, !run_spec_loop. cbn [call_records].
    rewrite Hkept. apply run_loop_kept.
  - rewrite !run_call_shape, !run_spec_loop. cbn [call_records].
    rewrite Hkept. apply run_loop_kept.
  - destruct (run_call_plan (StoreIssues repository_id issues) self) as (Hlog & _ & _).
    cbn zeta in Hlog. eexists. split; [exact Hlog|]. split.
    + rewrite Hkept. apply plan_length_kept.
    + apply Forall_lookup. intros j w Hw.
      apply plan_lookup in Hw as (r & _ & Hskip & Hset & _ & Hcoll).
      split; [exact Hcoll|]. rewrite Hset. unfold prepare. cbn.
      rewrite !lookup_insert_ne by done.
      by apply has_pull_request_false.
  - intros keys Hkeys.
    rewrite run_call_shape, run_spec_loop in Hkeys. cbn [call_records] in Hkeys.
    apply run_loop_keys in Hkeys as (news & -> & Hnews).
    rewrite Hkept. cbn [app]. eapply Forall2_impl; [exact Hnews|].
    intros k r (t & v & Hv & ->). cbn in Hv.
    rewrite !lookup_insert_ne in Hv by done. exact Hv.
Qed.

(** *** Timestamps *)





(** *** Foreign keys *)







Lemma with_records_same c : with_records c (call_records c) = c.
Proof. by destruct c. Qed.

(** C1. Upsert is idempotent: for each of the six store methods, any
    manager and any list of records, calling the method a second time with
    the same arguments leaves every collection with the same number of
    documents and the same documents, the ['collected_at'] field apart, as
    the first call left it.  This holds when the second call receives an
    equal list of fresh records and also when it receives the very list of
    the first call, whose records the first call has written into. *)
Theorem store_twice_same_content (c : store_call) (self : MongoDBManager) :
  let once := run_call utcnow py_str c self in
  let twice := run_call utcnow py_str c once.1.1 in
  let twice_same_list := run_call utcnow py_str (with_records c once.1.2) once.1.1 in
  forall k : collection,
    (length (get_collection k (db twice.1.1)) = length (get_collection k (db once.1.1)) /\
     strip <$> get_collection k (db twice.1.1) = strip <$> get_collection k (db once.1.1)) /\
    (length (get_collection k (db twice_same_list.1.1))
       = length (get_collection k (db once.1.1)) /\
     strip <$> get_collection k (db twice_same_list.1.1)
       = strip <$> get_collection k (db once.1.1)).
Proof.
  intros once twice twice_same_list k.
  assert (H1 : strip <$> get_collection k (db twice.1.1)
               = strip <$> get_collection k (db once.1.1)).
  { unfold twice, once.
    rewrite <- (with_records_same c) at 1.
    apply run_call_again.
    apply Forall2_same_length_lookup. split; [done|].
    intros i x y ? ?. left. congruence. }
  assert (H2 : strip <$> get_collection k (db twice_same_list.1.1)
               = strip <$> get_collection k (db once.1.1)).
  { unfold twice_same_list, once. apply run_call_again, run_call_records. }
  split; (split; [|done]).
  - apply (f_equal length) in H1. by rewrite !length_fmap in H1.
  - apply (f_equal length) in H2. by rewrite !length_fmap in H2.
Qed.

(** C10. Each of the six store methods, called with an empty list of
    records, returns the empty list and leaves the manager as it was: no
    [update_one] is sent, the clock is not read, every collection is
    unchanged. *)
Theorem store_empty_is_noop (c : store_call) (self : MongoDBManager) :
  run_call utcnow py_str (with_records c []) self = (self, [], Ok []).
Proof. by destruct c. Qed.

End Loops.

(** *** The store on concrete records *)

Example store_repositories_twice :
  let once := store_repositories ticking_clock str_scalar [octocat_repo] fresh_manager in
  let twice := store_repositories ticking_clock str_scalar [octocat_repo] once.1.1 in
  once.2 = Ok [VStr "1296269"] /\
  map_to_list <$> repositories (db once.1.1)
    = [[("collected_at", VTime 1700000000); ("id", VInt 1296269);
        ("name", VStr "Hello-World")]] /\
  map_to_list <$> repositories (db twice.1.1)
    = [[("collected_at", VTime 1700000001); ("id", VInt 1296269);
        ("name", VStr "Hello-World")]].
Proof. vm_compute. done. Qed.



Lemma store_issues_skips_pull_requests_witness :
  (store_issues ticking_clock (VInt 1296269)
     [Collector.issue_1; Collector.pull_2_as_issue] fresh_manager).2 = Ok [VInt 1] /\
  Forall2 (fun k issue => issue !! "number" = Some k) [VInt 1]
    (true_issues [Collector.issue_1; Collector.pull_2_as_issue]).
Proof.
  assert (H : (store_issues ticking_clock (VInt 1296269)
                 [Collector.issue_1; Collector.pull_2_as_issue] fresh_manager).2
              = Ok [VInt 1]) by (vm_compute; reflexivity).
  split; [exact H|].
  exact (proj2 (proj2 (proj2
    (store_issues_skips_pull_requests ticking_clock str_scalar (VInt 1296269)
       [Collector.issue_1; Collector.pull_2_as_issue] fresh_manager))) [VInt 1] H).
Defined.


End MongoProps.

(** ** Properties of the client *)

Module GitHubProps.
Import GitHub.

(** Each walk is its loop shape. *)

Lemma get_repositories_loop_shape fuel owner per_page acc page self net :
  get_repositories_loop fuel owner per_page acc page self net
  = walk (walk_of (GetRepositories owner per_page)) fuel acc page self net.
Proof.
  revert acc page self net. induction fuel as [|fuel IH]; intros; [done|].
  cbn [get_repositories_loop walk walk_of wk_endpoint wk_params wk_per_page wk_stop].
  destruct (_make_request _ _ self net) as [[[self' net'] [data|e]]|]; [| |done].
  - destruct data; [done|]. case_match; [done|apply IH].
  - by destruct e.
Qed.

Lemma get_commits_loop_shape fuel owner repo per_page acc page self net :
  get_commits_loop fuel owner repo per_page acc page self net
  = walk (walk_of (GetCommits owner repo per_page)) fuel acc page self net.
Proof.
  revert acc page self net. induction fuel as [|fuel IH]; intros; [done|].
  cbn [get_commits_loop walk walk_of wk_endpoint wk_params wk_per_page wk_stop].
  destruct (_make_request _ _ self net) as [[[self' net'] [data|e]]|]; [| |done].
  - destruct data; [done|]. case_match; [done|apply IH].
  - by destruct e.
Qed.

Lemma get_pull_requests_loop_shape fuel owner repo state acc page self net :
  get_pull_requests_loop fuel owner repo state acc page self net
  = walk (walk_of (GetPullRequests owner repo state)) fuel acc page self net.
Proof.
  revert acc page self net. induction fuel as [|fuel IH]; intros; [done|].
  cbn [get_pull_requests_loop walk walk_of wk_endpoint wk_params wk_per_page wk_stop].
  destruct (_make_request _ _ self net) as [[[self' net'] [data|e]]|]; [| |done].
  - destruct data; [done|]. case_match; [done|apply IH].
  - by destruct e.
Qed.

Lemma get_issues_loop_shape fuel owner repo state acc page self net :
  get_issues_loop fuel owner repo state acc page self net
  = walk (walk_of (GetIssues owner repo state)) fuel acc page self net.
Proof.
  revert acc page self net. induction fuel as [|fuel IH]; intros; [done|].
  cbn [get_issues_loop walk walk_of wk_endpoint wk_params wk_per_page wk_stop].
  destruct (_make_request _ _ self net) as [[[self' net'] [data|e]]|]; [| |done].
  - destruct data; [done|]. case_match; [done|apply IH].
  - by destruct e.
Qed.

Lemma run_walk_shape fuel c self net :
  run_walk fuel c self net = walk (walk_of c) fuel [] 1 self net.
Proof.
  destruct c; cbn [run_walk].
  - apply get_repositories_loop_shape.
  - apply get_commits_loop_shape.
  - apply get_pull_requests_loop_shape.
  - apply get_issues_loop_shape.
Qed.

(** *** One request *)

Lemma check_pending self net : pending (_check_rate_limit self net) = pending net.
Proof. unfold _check_rate_limit. by repeat case_match. Qed.

Lemma requests_app t1 t2 : requests (t1 ++ t2) = requests t1 ++ requests t2.
Proof. unfold requests. apply omap_app. Qed.

Lemma check_requests self net :
  requests (trace (_check_rate_limit self net)) = requests (trace net).
Proof.
  unfold _check_rate_limit. repeat case_match; try done.
  cbn. rewrite requests_app. cbn. by rewrite app_nil_r.
Qed.

Lemma session_get_cons url params net latency r rest :
  pending net = (latency, r) :: rest ->
  session_get url params net
  = Some ({| now := (now net + latency)%Q; pending := rest;
             trace := trace net ++ [Get url params] |}, r).
Proof. unfold session_get. by intros ->. Qed.

Ltac read_headers r Hrem Hres :=
  let t1 := fresh "text" in
  let t2 := fresh "text" in
  destruct (headers r !! "X-RateLimit-Remaining") as [t1|] eqn:?;
    [destruct (Hrem t1 eq_refl) as [? ->]|];
  (destruct (headers r !! "X-RateLimit-Reset") as [t2|] eqn:?;
    [destruct (Hres t2 eq_refl) as [? ->]|]).

Lemma make_request_delivers endpoint params self net latency r rest data :
  pending net = (latency, Responds r) :: rest -> delivers r data ->
  exists self' net',
    _make_request endpoint params self net = Some (self', net', Ok data) /\
    one_request endpoint params self net rest self' net'.
Proof.
  intros Hp (Hst & [Hrem Hres] & Hjson). unfold _make_request.
  rewrite (session_get_cons _ _ _ latency (Responds r) rest)
    by (by rewrite check_pending).
  read_headers r Hrem Hres; cbn; rewrite Hst, Hjson;
    (do 2 eexists; split; [done|]); repeat split; cbn;
    by rewrite requests_app, check_requests.
Qed.

Lemma make_request_http_error endpoint params self net latency r rest :
  pending net = (latency, Responds r) :: rest ->
  headers_ok r -> is_http_error (status_code r) = true ->
  exists self' net',
    _make_request endpoint params self net
      = Some (self', net', Raise (HTTPError (status_code r))) /\
    one_request endpoint params self net rest self' net'.
Proof.
  intros Hp [Hrem Hres] Hst. unfold _make_request.
  rewrite (session_get_cons _ _ _ latency (Responds r) rest)
    by (by rewrite check_pending).
  read_headers r Hrem Hres; cbn; rewrite Hst;
    (do 2 eexists; split; [done|]); repeat split; cbn;
    by rewrite requests_app, check_requests.
Qed.

(** *** The pages of a walk *)

Lemma page_requests_snoc url params page n :
  page_requests url params page (S n)
  = page_requests url params page n ++ [(url, params (page + Z.of_nat n))].
Proof.
  revert page. induction n as [|n IH]; intros page.
  - cbn. by rewrite Z.add_0_r.
  - change (page_requests url params page (S (S n)))
      with ((url, params page) :: page_requests url params (page + 1) (S n)).
    rewrite IH. cbn [page_requests app].
    by replace (page + 1 + Z.of_nat n) with (page + Z.of_nat (S n)) by lia.
Qed.

Lemma page_requests_length url params page n :
  length (page_requests url params page n) = n.
Proof. revert page. induction n as [|n IH]; intros page; cbn; [done|by rewrite IH]. Qed.

Lemma page_requests_lookup url params page n k :
  (k < n)%nat ->
  page_requests url params page n !! k = Some (url, params (page + Z.of_nat k)).
Proof.
  revert page k. induction n as [|n IH]; intros page k Hk; [lia|].
  destruct k as [|k]; cbn.
  - by rewrite Z.add_0_r.
  - rewrite IH by lia. do 3 f_equal. lia.
Qed.

Lemma is_final_false per_page data :
  is_final per_page data = false ->
  data <> [] /\ (Z.of_nat (length data) <? per_page) = false.
Proof. destruct data; [done|]. cbn [is_final]. by intros ->. Qed.

(** Pages that are not final are fetched one after the other and the walk
    goes on after them. *)
Lemma walk_full w full script rest fuel items page self net :
  serves script full -> pending net = script ++ rest ->
  Forall (fun data => is_final (wk_per_page w) data = false) full ->
  exists self' net',
    walk w (length full + fuel) items page self net
      = walk w fuel (items ++ concat full) (page + Z.of_nat (length full)) self' net' /\
    pending net' = rest /\
    requests (trace net')
      = requests (trace net)
        ++ page_requests (base_url (config self) +:+ wk_endpoint w) (wk_params w)
             page (length full) /\
    config self' = config self.
Proof.
  intros Hserve. revert fuel items page self net.
  induction Hserve as [|x data script full (r & Hx & Hr) _ IH];
    intros fuel items page self net Hp Hfull.
  - cbn in *. exists self, net. by rewrite !app_nil_r, Z.add_0_r.
  - apply Forall_cons in Hfull as [[Hne Hlen]%is_final_false Hfull].
    destruct x as [latency rp]. cbn in Hx. subst rp. cbn [app] in Hp.
    destruct (make_request_delivers (wk_endpoint w) (wk_params w page) self net
                latency r (script ++ rest) data Hp Hr)
      as (self1 & net1 & Hreq & Hp1 & Ht1 & Hc1).
    destruct (IH fuel (items ++ data) (page + 1) self1 net1 Hp1 Hfull)
      as (self' & net' & Hwalk & Hp' & Ht' & Hc').
    exists self', net'. split; [|split; [done|split; [|congruence]]].
    + cbn [length plus walk]. rewrite Hreq.
      destruct data as [|d data]; [done|]. rewrite Hlen, Hwalk.
      cbn [concat]. rewrite <- (assoc_L (++)).
      by replace (page + 1 + Z.of_nat (length full))
        with (page + Z.of_nat (S (length full))) by lia.
    + rewrite Ht', Ht1, Hc1. cbn [length page_requests].
      by rewrite <- (assoc_L (++)).
Qed.

(** A final page ends the walk. *)
Lemma walk_last w fuel items page self net latency r rest data :
  pending net = (latency, Responds r) :: rest -> delivers r data ->
  is_final (wk_per_page w) data = true ->
  exists self' net',
    walk w (S fuel) items page self net = Some (self', net', Ok (items ++ data)) /\
    one_request (wk_endpoint w) (wk_params w page) self net rest self' net'.
Proof.
  intros Hp Hr Hfinal.
  destruct (make_request_delivers (wk_endpoint w) (wk_params w page) self net
              latency r rest data Hp Hr) as (self1 & net1 & Hreq & Hone).
  exists self1, net1. split; [|done]. cbn [walk]. rewrite Hreq.
  destruct data as [|d data]; [by rewrite app_nil_r|].
  cbn [is_final] in Hfinal. by rewrite Hfinal.
Qed.

(** An HTTP error ends the walk: with what was fetched when the walk
    stops on this status, with the error otherwise. *)
Lemma walk_http_error w fuel items page self net latency r rest :
  pending net = (latency, Responds r) :: rest ->
  headers_ok r -> is_http_error (status_code r) = true ->
  exists self' net',
    walk w (S fuel) items page self net
      = Some (self', net',
              if wk_stop w (status_code r) then Ok items
              else Raise (HTTPError (status_code r))) /\
    one_request (wk_endpoint w) (wk_params w page) self net rest self' net'.
Proof.
  intros Hp Hok Herr.
  destruct (make_request_http_error (wk_endpoint w) (wk_params w page) self net
              latency r rest Hp Hok Herr) as (self1 & net1 & Hreq & Hone).
  exists self1, net1. split; [|done]. cbn [walk]. rewrite Hreq.
  by destruct (wk_stop w (status_code r)).
Qed.

(** *** Walks *)

Lemma walk_pages w fuel full last script rest self net :
  serves script (full ++ [last]) -> pending net = script ++ rest ->
  Forall (fun data => is_final (wk_per_page w) data = false) full ->
  is_final (wk_per_page w) last = true ->
  (length full < fuel)%nat ->
  exists self' net',
    walk w fuel [] 1 self net = Some (self', net', Ok (concat full ++ last)) /\
    pending net' = rest /\
    requests (trace net')
      = requests (trace net)
        ++ page_requests (base_url (config self) +:+ wk_endpoint w) (wk_params w)
             1 (S (length full)) /\
    config self' = config self.
Proof.
  intros Hserve Hp Hfull Hlast Hfuel.
  apply Forall2_app_inv_r in Hserve as (s1 & s2 & Hs1 & Hs2 & ->).
  apply Forall2_length in Hs2 as Hlen2.
  destruct s2 as [|[latency rp] [|? ?]]; try done.
  apply Forall2_cons_1 in Hs2 as [(r & Hrp & Hr) _]. cbn in Hrp. subst rp.
  rewrite <- (assoc_L (++)) in Hp.
  destruct (walk_full w full s1 ([(latency, Responds r)] ++ rest)
              (fuel - length full) [] 1 self net Hs1 Hp Hfull)
    as (self1 & net1 & Hwalk & Hp1 & Ht1 & Hc1).
  replace (length full + (fuel - length full))%nat with fuel in Hwalk by lia.
  destruct (fuel - length full)%nat as [|fuel'] eqn:Hf; [lia|].
  destruct (walk_last w fuel' (concat full) (1 + Z.of_nat (length full)) self1 net1
              latency r rest last Hp1 Hr Hlast)
    as (self' & net' & Hlastw & Hp' & Ht' & Hc').
  exists self', net'. cbn [app] in Hwalk. rewrite Hwalk, Hlastw.
  split; [done|]. split; [done|]. split; [|congruence].
  rewrite Ht', Ht1, Hc1, page_requests_snoc. by rewrite <- (assoc_L (++)).
Qed.

Lemma is_final_length per_page data :
  is_final per_page data
  = (length data =? 0)%nat || (Z.of_nat (length data) <? per_page).
Proof. by destruct data. Qed.

Lemma walk_of_page c page : wk_params (walk_of c) page !! "page" = Some (VInt page).
Proof. destruct c; cbn; by simplify_map_eq. Qed.

(** C2. For each of the four walks ([get_repositories], [get_commits],
    [get_pull_requests], [get_issues]): the query of a request carries its
    page number; against a server that delivers pages of which the last one
    is empty or shorter than the page size and the others are neither, the
    walk, given enough iterations, returns all the pages in order, having
    sent one request for each page, for the pages 1, 2, 3, ... in this order,
    and having consumed no further reply.  In particular pages of sizes
    100, 100, 100, 37 give 337 items in 4 requests, and pages of sizes
    100, 100, 0 give 200 items in 3 requests. *)
Theorem paginated_walk_pages_and_requests (c : walk_call) :
  (forall page, wk_params (walk_of c) page !! "page" = Some (VInt page)) /\
  (forall fuel full last script rest self net,
     serves script (full ++ [last]) -> pending net = script ++ rest ->
     Forall (fun data => is_final (wk_per_page (walk_of c)) data = false) full ->
     is_final (wk_per_page (walk_of c)) last = true ->
     (length full < fuel)%nat ->
     exists self' net',
       run_walk fuel c self net = Some (self', net', Ok (concat full ++ last)) /\
       pending net' = rest /\
       requests (trace net')
         = requests (trace net)
           ++ page_requests (base_url (config self) +:+ wk_endpoint (walk_of c))
                (wk_params (walk_of c)) 1 (S (length full))) /\
  (forall fuel pages script rest self net,
     wk_per_page (walk_of c) = 100 ->
     serves script pages -> pending net = script ++ rest ->
     length <$> pages = [100; 100; 100; 37]%nat -> (4 <= fuel)%nat ->
     exists self' net' items,
       run_walk fuel c self net = Some (self', net', Ok items) /\
       length items = 337%nat /\
       length (requests (trace net')) = (length (requests (trace net)) + 4)%nat /\
       pending net' = rest) /\
  (forall fuel pages script rest self net,
     wk_per_page (walk_of c) = 100 ->
     serves script pages -> pending net = script ++ rest ->
     length <$> pages = [100; 100; 0]%nat -> (3 <= fuel)%nat ->
     exists self' net' items,
       run_walk fuel c self net = Some (self', net', Ok items) /\
       length items = 200%nat /\
       length (requests (trace net')) = (length (requests (trace net)) + 3)%nat /\
       pending net' = rest).
Proof.
  split; [apply walk_of_page|]. split; [|split].
  - intros fuel full last script rest self net Hs Hp Hfull Hlast Hfuel.
    rewrite run_walk_shape.
    destruct (walk_pages (walk_of c) fuel full last script rest self net
                Hs Hp Hfull Hlast Hfuel) as (self' & net' & ? & ? & ? & _).
    by exists self', net'.
  - intros fuel pages script rest self net Hpp Hs Hp Hlen Hfuel.
    destruct pages as [|p1 [|p2 [|p3 [|p4 [|? ?]]]]]; try done.
    cbn in Hlen. injection Hlen as H1 H2 H3 H4.
    rewrite run_walk_shape.
    assert (Hfull : Forall (fun data => is_final (wk_per_page (walk_of c)) data = false)
                      [p1; p2; p3]).
    { rewrite Hpp. repeat constructor; by rewrite is_final_length, ?H1, ?H2, ?H3. }
    assert (Hlast : is_final (wk_per_page (walk_of c)) p4 = true).
    { by rewrite Hpp, is_final_length, H4. }
    assert (Hlt : (length [p1; p2; p3] < fuel)%nat) by (cbn; lia).
    destruct (walk_pages (walk_of c) fuel [p1; p2; p3] p4 script rest self net
                Hs Hp Hfull Hlast Hlt)
      as (self' & net' & Hw & Hrest & Ht & _).
    exists self', net', (concat [p1; p2; p3] ++ p4). split; [done|].
    split; [|split; [|done]].
    + cbn. rewrite !length_app, H1, H2, H3, H4. done.
    + rewrite Ht, length_app, page_requests_length. done.
  - intros fuel pages script rest self net Hpp Hs Hp Hlen Hfuel.
    destruct pages as [|p1 [|p2 [|p3 [|? ?]]]]; try done.
    cbn in Hlen. injection Hlen as H1 H2 H3.
    rewrite run_walk_shape.
    assert (Hfull : Forall (fun data => is_final (wk_per_page (walk_of c)) data = false)
                      [p1; p2]).
    { rewrite Hpp. repeat constructor; by rewrite is_final_length, ?H1, ?H2. }
    assert (Hlast : is_final (wk_per_page (walk_of c)) p3 = true).
    { by rewrite Hpp, is_final_length, H3. }
    assert (Hlt : (length [p1; p2] < fuel)%nat) by (cbn; lia).
    destruct (walk_pages (walk_of c) fuel [p1; p2] p3 script rest self net
                Hs Hp Hfull Hlast Hlt)
      as (self' & net' & Hw & Hrest & Ht & _).
    exists self', net', (concat [p1; p2] ++ p3). split; [done|].
    split; [|split; [|done]].
    + cbn. rewrite !length_app, H1, H2, H3. done.
    + rewrite Ht, length_app, page_requests_length. done.
Qed.

Lemma walk_pages_then_error w fuel full script x rest self net status :
  serves script full -> pending net = script ++ x :: rest ->
  answers_status x status -> is_http_error status = true ->
  Forall (fun data => is_final (wk_per_page w) data = false) full ->
  (length full < fuel)%nat ->
  exists self' net',
    walk w fuel [] 1 self net
      = Some (self', net',
              if wk_stop w status then Ok (concat full) else Raise (HTTPError status)) /\
    pending net' = rest /\
    requests (trace net')
      = requests (trace net)
        ++ page_requests (base_url (config self) +:+ wk_endpoint w) (wk_params w)
             1 (S (length full)).
Proof.
  intros Hserve Hp (r & Hx & <- & Hok) Herr Hfull Hfuel.
  destruct x as [latency rp]. cbn in Hx. subst rp.
  destruct (walk_full w full script ((latency, Responds r) :: rest)
              (fuel - length full) [] 1 self net Hserve Hp Hfull)
    as (self1 & net1 & Hwalk & Hp1 & Ht1 & Hc1).
  replace (length full + (fuel - length full))%nat with fuel in Hwalk by lia.
  destruct (fuel - length full)%nat as [|fuel'] eqn:Hf; [lia|].
  destruct (walk_http_error w fuel' (concat full) (1 + Z.of_nat (length full)) self1 net1
              latency r rest Hp1 Hok Herr)
    as (self' & net' & Hlastw & Hp' & Ht' & Hc').
  exists self', net'. cbn [app] in Hwalk. rewrite Hwalk, Hlastw.
  split; [done|]. split; [done|].
  rewrite Ht', Ht1, Hc1, page_requests_snoc. by rewrite <- (assoc_L (++)).
Qed.

Lemma concat_nonempty (full : list (list doc)) per_page :
  Forall (fun data => is_final per_page data = false) full ->
  full <> [] -> concat full <> [].
Proof.
  intros H Hne. destruct full as [|data full]; [done|].
  apply Forall_cons in H as [[Hd _]%is_final_false _].
  cbn. by destruct data.
Qed.

(** C9. In a commit walk an HTTP 409 on any page request ends the walk
    without an exception: after any number of pages that do not end the walk
    themselves, a reply with status 409 (and well-formed rate-limit headers)
    makes [get_commits] return the commits of the pages fetched before it,
    after one request more than these pages; when there is such a page the
    list returned is not empty. *)
Theorem commit_walk_409_returns_fetched (fuel : nat) (owner repo : string) (per_page : Z)
    (full : list (list doc)) (script : list (Q * reply)) (x : Q * reply)
    (rest : list (Q * reply)) (self : GitHubAPIClient) (net : Network) :
  serves script full -> pending net = script ++ x :: rest ->
  answers_status x 409 ->
  Forall (fun data => is_final per_page data = false) full ->
  (length full < fuel)%nat ->
  exists self' net',
    get_commits fuel owner repo per_page self net = Some (self', net', Ok (concat full)) /\
    pending net' = rest /\
    length (requests (trace net')) = (length (requests (trace net)) + S (length full))%nat /\
    (full <> [] -> concat full <> []).
Proof.
  intros Hserve Hp Hx Hfull Hfuel.
  change (get_commits fuel owner repo per_page self net)
    with (run_walk fuel (GetCommits owner repo per_page) self net).
  rewrite run_walk_shape.
  destruct (walk_pages_then_error (walk_of (GetCommits owner repo per_page)) fuel full
              script x rest self net 409 Hserve Hp Hx eq_refl Hfull Hfuel)
    as (self' & net' & Hw & Hrest & Ht).
  exists self', net'. split; [exact Hw|]. split; [done|]. split.
  - rewrite Ht, length_app, page_requests_length. done.
  - by apply (concat_nonempty full per_page).
Qed.

Lemma get_contributors_http_error owner repo self net x rest status :
  pending net = x :: rest -> answers_status x status -> is_http_error status = true ->
  exists self' net',
    get_contributors owner repo self net
      = Some (self', net', if status =? 404 then Ok [] else Raise (HTTPError status)) /\
    pending net' = rest.
Proof.
  intros Hp (r & Hx & <- & Hok) Herr.
  destruct x as [latency rp]. cbn in Hx. subst rp.
  destruct (make_request_http_error
              ("/repos/" +:+ owner +:+ "/" +:+ repo +:+ "/contributors") ∅ self net
              latency r rest Hp Hok Herr) as (self' & net' & Hreq & Hrest & _).
  exists self', net'. split; [|done]. unfold get_contributors. rewrite Hreq.
  by destruct (status_code r =? 404).
Qed.

(** C4, as the code has it.  With well-formed rate-limit headers: an HTTP
    409 on the first page of a commit walk makes [get_commits] return the
    empty list without an exception; an HTTP 404 makes [get_contributors]
    return the empty list without an exception; every other status from 400
    to 599, the statuses for which [raise_for_status] raises, comes out of
    the two methods as [HTTPError] with that status, on whatever page of the
    commit walk it is received. *)
Theorem empty_results_and_http_errors (owner repo : string) :
  (forall fuel per_page x rest self net,
     pending net = x :: rest -> answers_status x 409 ->
     exists self' net',
       get_commits (S fuel) owner repo per_page self net = Some (self', net', Ok []) /\
       pending net' = rest) /\
  (forall x rest self net,
     pending net = x :: rest -> answers_status x 404 ->
     exists self' net',
       get_contributors owner repo self net = Some (self', net', Ok []) /\
       pending net' = rest) /\
  (forall fuel per_page full script x rest self net status,
     serves script full -> pending net = script ++ x :: rest ->
     answers_status x status -> is_http_error status = true -> status <> 409 ->
     Forall (fun data => is_final per_page data = false) full ->
     (length full < fuel)%nat ->
     exists self' net',
       get_commits fuel owner repo per_page self net
         = Some (self', net', Raise (HTTPError status)) /\
       pending net' = rest) /\
  (forall x rest self net status,
     pending net = x :: rest ->
     answers_status x status -> is_http_error status = true -> status <> 404 ->
     exists self' net',
       get_contributors owner repo self net
         = Some (self', net', Raise (HTTPError status)) /\
       pending net' = rest).
Proof.
  split; [|split; [|split]].
  - intros fuel per_page x rest self net Hp Hx.
    change (get_commits (S fuel) owner repo per_page self net)
      with (run_walk (S fuel) (GetCommits owner repo per_page) self net).
    rewrite run_walk_shape.
    assert (Hs : serves [] []) by constructor.
    assert (Hfuel : (length (@nil (list doc)) < S fuel)%nat) by (cbn; lia).
    destruct (walk_pages_then_error (walk_of (GetCommits owner repo per_page)) (S fuel) []
                [] x rest self net 409 Hs Hp Hx eq_refl (Forall_nil_2 _) Hfuel)
      as (self' & net' & Hw & Hrest & _).
    by exists self', net'.
  - intros x rest self net Hp Hx.
    destruct (get_contributors_http_error owner repo self net x rest 404 Hp Hx eq_refl)
      as (self' & net' & Hw & Hrest).
    by exists self', net'.
  - intros fuel per_page full script x rest self net status Hs Hp Hx Herr Hne Hfull Hfuel.
    change (get_commits fuel owner repo per_page self net)
      with (run_walk fuel (GetCommits owner repo per_page) self net).
    rewrite run_walk_shape.
    destruct (walk_pages_then_error (walk_of (GetCommits owner repo per_page)) fuel full
                script x rest self net status Hs Hp Hx Herr Hfull Hfuel)
      as (self' & net' & Hw & Hrest & _).
    exists self', net'. split; [|done]. rewrite Hw. cbn [walk_of wk_stop].
    by rewrite (proj2 (Z.eqb_neq status 409)).
  - intros x rest self net status Hp Hx Herr Hne.
    destruct (get_contributors_http_error owner repo self net x rest status Hp Hx Herr)
      as (self' & net' & Hw & Hrest).
    exists self', net'. split; [|done]. rewrite Hw.
    by rewrite (proj2 (Z.eqb_neq status 404)).
Qed.

(** *** Rate limiting *)

Lemma Qltb_true x y : Qltb x y = true <-> (x < y)%Q.
Proof.
  unfold Qltb. rewrite negb_true_iff, <- not_true_iff_false, Qle_bool_iff.
  split; [apply Qnot_le_lt|apply Qlt_not_le].
Qed.

Lemma Qltb_false x y : Qltb x y = false <-> (y <= x)%Q.
Proof. unfold Qltb. by rewrite negb_false_iff, Qle_bool_iff. Qed.

Lemma check_waits self net :
  rate_limit_remaining self <= 1 -> (now net < rate_limit_reset self)%Q ->
  _check_rate_limit self net = sleep (rate_limit_reset self - now net)%Q net.
Proof.
  intros Hrem Hlt. unfold _check_rate_limit.
  rewrite (proj2 (Z.leb_le _ _) Hrem).
  assert (Hd : Qltb (inject_Z 0) (rate_limit_reset self - now net)%Q = true).
  { apply Qltb_true. change (inject_Z 0) with 0%Q. lra. }
  unfold py_max. by rewrite Hd, Hd.
Qed.

Lemma check_passes self net :
  1 < rate_limit_remaining self \/ (rate_limit_reset self <= now net)%Q ->
  _check_rate_limit self net = net.
Proof.
  intros H. unfold _check_rate_limit.
  destruct (rate_limit_remaining self <=? 1) eqn:Hrem; [|done].
  destruct H as [H|H]; [apply Z.leb_le in Hrem; lia|].
  assert (Hd : Qltb (inject_Z 0) (rate_limit_reset self - now net)%Q = false).
  { apply Qltb_false. change (inject_Z 0) with 0%Q. lra. }
  unfold py_max. rewrite Hd.
  assert (H0 : Qltb (inject_Z 0) (inject_Z 0) = false) by done.
  by rewrite H0.
Qed.

(** Whatever the reply, a request adds one [Get] after the rate-limit
    check. *)
Lemma make_request_trace endpoint params self net x rest :
  pending net = x :: rest ->
  exists self' net' res,
    _make_request endpoint params self net = Some (self', net', res) /\
    trace net' = trace (_check_rate_limit self net)
                 ++ [Get (base_url (config self) +:+ endpoint) params] /\
    pending net' = rest.
Proof.
  intros Hp. destruct x as [latency rp]. unfold _make_request.
  rewrite (session_get_cons _ _ _ latency rp rest) by (by rewrite check_pending).
  destruct rp as [r|];
    repeat case_match;
    (do 3 eexists; split; [reflexivity|]; split; reflexivity).
Qed.

(** C5. Before every request the client checks its counters: when
    [rate_limit_remaining] is at most 1 and [rate_limit_reset] lies ahead of
    the clock, it sleeps for [rate_limit_reset - now] seconds, which is
    [max(0, rate_limit_reset - now)], and sends the request after the sleep;
    when [rate_limit_remaining] is above 1, or [rate_limit_reset] is not
    ahead of the clock, it sends the request without sleeping. *)
Theorem rate_limit_wait (endpoint : string) (params : doc)
    (self : GitHubAPIClient) (net : Network) :
  (rate_limit_remaining self <= 1 -> (now net < rate_limit_reset self)%Q ->
   let T := (rate_limit_reset self - now net)%Q in
   T = py_max (inject_Z 0) T /\
   _check_rate_limit self net
     = {| now := (now net + T)%Q; pending := pending net;
          trace := trace net ++ [Sleep T] |} /\
   forall x rest, pending net = x :: rest ->
     exists self' net' res,
       _make_request endpoint params self net = Some (self', net', res) /\
       trace net'
         = trace net ++ [Sleep T; Get (base_url (config self) +:+ endpoint) params]) /\
  (1 < rate_limit_remaining self \/ (rate_limit_reset self <= now net)%Q ->
   _check_rate_limit self net = net /\
   forall x rest, pending net = x :: rest ->
     exists self' net' res,
       _make_request endpoint params self net = Some (self', net', res) /\
       trace net' = trace net ++ [Get (base_url (config self) +:+ endpoint) params]).
Proof.
  split.
  - intros Hrem Hlt T. split; [|split].
    + unfold py_max.
      assert (Hd : Qltb (inject_Z 0) T = true).
      { apply Qltb_true. unfold T. change (inject_Z 0) with 0%Q. lra. }
      by rewrite Hd.
    + by rewrite check_waits.
    + intros x rest Hp.
      destruct (make_request_trace endpoint params self net x rest Hp)
        as (self' & net' & res & Hreq & Ht & _).
      exists self', net', res. split; [done|].
      rewrite Ht, check_waits by done. cbn. by rewrite <- (assoc_L (++)).
  - intros H. split; [by apply check_passes|].
    intros x rest Hp.
    destruct (make_request_trace endpoint params self net x rest Hp)
      as (self' & net' & res & Hreq & Ht & _).
    exists self', net', res. split; [done|].
    by rewrite Ht, check_passes.
Qed.

(** C7. After a call that got a response, whatever its status and whatever
    the counters were before, [rate_limit_remaining] and [rate_limit_reset]
    are the integers of the response's [X-RateLimit-Remaining] and
    [X-RateLimit-Reset] headers; for a status from 400 to 599 the call then
    raises [HTTPError], the counters already overwritten. *)
Theorem rate_limit_state_from_headers (endpoint : string) (params : doc)
    (self : GitHubAPIClient) (net : Network)
    (latency : Q) (r : Response) (rest : list (Q * reply))
    (text1 text2 : string) (remaining reset : Z) :
  pending net = (latency, Responds r) :: rest ->
  headers r !! "X-RateLimit-Remaining" = Some text1 -> py_int text1 = Some remaining ->
  headers r !! "X-RateLimit-Reset" = Some text2 -> py_int text2 = Some reset ->
  exists self' net' res,
    _make_request endpoint params self net = Some (self', net', res) /\
    rate_limit_remaining self' = remaining /\
    rate_limit_reset self' = inject_Z reset /\
    config self' = config self /\
    (is_http_error (status_code r) = true -> res = Raise (HTTPError (status_code r))) /\
    (is_http_error (status_code r) = false ->
     res = match json r with Some data => Ok data | None => Raise JSONDecodeError end).
Proof.
  intros Hp H1 Hi1 H2 Hi2. unfold _make_request.
  rewrite (session_get_cons _ _ _ latency (Responds r) rest)
    by (by rewrite check_pending).
  rewrite H1, Hi1, H2, Hi2. cbn.
  destruct (is_http_error (status_code r)).
  - do 3 eexists. split; [done|]. by repeat split.
  - destruct (json r); do 3 eexists; (split; [done|]); by repeat split.
Qed.

(** Without the headers the counters are set as well: to 0 and to the hour
    after the response, in whole seconds. *)
Lemma rate_limit_state_defaults endpoint params self net latency r rest :
  pending net = (latency, Responds r) :: rest ->
  headers r !! "X-RateLimit-Remaining" = None ->
  headers r !! "X-RateLimit-Reset" = None ->
  exists self' net' res,
    _make_request endpoint params self net = Some (self', net', res) /\
    rate_limit_remaining self' = 0 /\
    rate_limit_reset self' = inject_Z (py_trunc (now net' + inject_Z 3600)%Q).
Proof.
  intros Hp H1 H2. unfold _make_request.
  rewrite (session_get_cons _ _ _ latency (Responds r) rest)
    by (by rewrite check_pending).
  rewrite H1, H2. cbn.
  destruct (is_http_error (status_code r)); [by do 3 eexists|].
  destruct (json r); by do 3 eexists.
Qed.

(** *** The client on concrete replies *)

Lemma limit_headers_ok status body :
  headers_ok {| status_code := status; headers := limit_headers; json := body |}.
Proof.
  split; intros text H; cbn in H; unfold limit_headers in H; simplify_map_eq;
    by eexists.
Qed.

Lemma reply_with_delivers status data :
  is_http_error status = false ->
  exists r, (reply_with status (Some data)).2 = Responds r /\ delivers r data.
Proof.
  intros H. eexists. split; [reflexivity|]. split; [exact H|].
  split; [apply limit_headers_ok|reflexivity].
Qed.

Lemma reply_with_status status body : answers_status (reply_with status body) status.
Proof.
  eexists. split; [reflexivity|]. split; [reflexivity|apply limit_headers_ok].
Qed.

Example walk_two_pages :
  exists self' net',
    get_repositories 3 "octocat" 2 sample_client
      (sample_network [reply_with 200 (Some [commit_a; commit_b]);
                       reply_with 200 (Some [commit_a])])
    = Some (self', net', Ok [commit_a; commit_b; commit_a]) /\
    rate_limit_remaining self' = 4999 /\
    requests (trace net')
    = [("https://api.github.com/users/octocat/repos",
        {["per_page" := VInt 2; "page" := VInt 1; "sort" := VStr "updated"]});
       ("https://api.github.com/users/octocat/repos",
        {["per_page" := VInt 2; "page" := VInt 2; "sort" := VStr "updated"]})].
Proof. do 2 eexists. split; [by vm_compute|]. split; by vm_compute. Qed.

(** C4 as stated fails on a status that is neither 2xx nor an HTTP error
    for [raise_for_status]: a reply with status 300 and a JSON body is
    returned by [get_contributors] and by [get_commits] as a result, no
    exception is raised. *)
Lemma status_300_is_returned_not_raised :
  is_http_error 300 = false /\
  (exists self' net',
     get_contributors "octocat" "Hello-World" sample_client
       (sample_network [reply_with 300 (Some [commit_a])])
     = Some (self', net', Ok [commit_a])) /\
  (exists self' net',
     get_commits 2 "octocat" "Hello-World" 100 sample_client
       (sample_network [reply_with 300 (Some [commit_a])])
     = Some (self', net', Ok [commit_a])).
Proof.
  split; [reflexivity|]. split; do 2 eexists; by vm_compute.
Qed.

Lemma commit_walk_409_returns_fetched_witness :
  exists self' net',
    get_commits 5 "octocat" "Hello-World" 2 sample_client
      (sample_network ([reply_with 200 (Some [commit_a; commit_b])]
                       ++ reply_with 409 None :: []))
    = Some (self', net', Ok (concat [[commit_a; commit_b]])) /\
    pending net' = [] /\
    length (requests (trace net'))
    = (length (requests (trace (sample_network
         ([reply_with 200 (Some [commit_a; commit_b])] ++ reply_with 409 None :: []))))
       + S (length [[commit_a; commit_b]]))%nat /\
    ([[commit_a; commit_b]] <> [] -> concat [[commit_a; commit_b]] <> []).
Proof.
  apply (commit_walk_409_returns_fetched 5 "octocat" "Hello-World" 2
           [[commit_a; commit_b]] [reply_with 200 (Some [commit_a; commit_b])]
           (reply_with 409 None) [] sample_client).
  - constructor; [|constructor]. by apply reply_with_delivers.
  - reflexivity.
  - apply reply_with_status.
  - constructor; [reflexivity|constructor].
  - cbn. lia.
Defined.

Lemma rate_limit_state_from_headers_witness :
  exists self' net' res,
    _make_request "/repos/octocat/Hello-World/contributors" ∅ sample_client
      (sample_network [reply_with 404 None])
    = Some (self', net', res) /\
    rate_limit_remaining self' = 4999 /\
    rate_limit_reset self' = inject_Z 1700003600 /\
    config self' = config sample_client /\
    (is_http_error 404 = true -> res = Raise (HTTPError 404)) /\
    (is_http_error 404 = false -> res = Raise JSONDecodeError).
Proof.
  apply (rate_limit_state_from_headers "/repos/octocat/Hello-World/contributors" ∅
           sample_client (sample_network [reply_with 404 None])
           (1 # 2)%Q
           {| status_code := 404; headers := limit_headers; json := None |}
           [] "4999" "1700003600" 4999 1700003600).
  - reflexivity.
  - reflexivity.
  - reflexivity.
  - reflexivity.
  - reflexivity.
Defined.

Example wait_until_reset :
  let self := {| config := sample_config; rate_limit_remaining := 1;
                 rate_limit_reset := inject_Z 1700000030 |} in
  exists self' net' res,
    _make_request "/users/octocat/repos" ∅ self
      (sample_network [reply_with 200 (Some [])])
    = Some (self', net', res) /\
    trace net' = [Sleep (inject_Z 1700000030 - inject_Z 1700000000)%Q;
                  Get "https://api.github.com/users/octocat/repos" ∅] /\
    (now net' == inject_Z 1700000030 + (1 # 2))%Q.
Proof. cbn zeta. do 3 eexists. split; [by vm_compute|]. split; by vm_compute. Qed.

Lemma paginated_walk_pages_and_requests_witness :
  let pages := [replicate 100 commit_a; replicate 100 commit_b;
                replicate 100 commit_a; replicate 37 commit_b] in
  let script := (fun data => reply_with 200 (Some data)) <$> pages in
  exists self' net' items,
    run_walk 4 (GetIssues "octocat" "Hello-World" "all") sample_client
      (sample_network (script ++ []))
    = Some (self', net', Ok items) /\
    length items = 337%nat /\
    length (requests (trace net'))
    = (length (requests (trace (sample_network (script ++ [])))) + 4)%nat /\
    pending net' = [].
Proof.
  intros pages script.
  apply (proj1 (proj2 (proj2
           (paginated_walk_pages_and_requests (GetIssues "octocat" "Hello-World" "all"))))
           4%nat pages script [] sample_client (sample_network (script ++ []))).
  - reflexivity.
  - repeat (constructor; [by apply reply_with_delivers|]). constructor.
  - reflexivity.
  - reflexivity.
  - lia.
Defined.

Lemma empty_results_and_http_errors_witness :
  exists self' net',
    get_commits 1 "octocat" "Hello-World" 100 sample_client
      (sample_network [reply_with 409 None])
    = Some (self', net', Ok []) /\
    pending net' = [].
Proof.
  apply (proj1 (empty_results_and_http_errors "octocat" "Hello-World")
           0%nat 100 (reply_with 409 None) [] sample_client
           (sample_network [reply_with 409 None])).
  - reflexivity.
  - apply reply_with_status.
Defined.

Lemma rate_limit_wait_witness :
  let self := {| config := sample_config; rate_limit_remaining := 1;
                 rate_limit_reset := inject_Z 1700000030 |} in
  let net := sample_network [reply_with 200 (Some [])] in
  _check_rate_limit self net
  = {| now := (now net + (rate_limit_reset self - now net))%Q;
       pending := pending net;
       trace := trace net ++ [Sleep (rate_limit_reset self - now net)%Q] |}.
Proof.
  intros self net.
  assert (H1 : rate_limit_remaining self <= 1) by (cbn; lia).
  assert (H2 : (now net < rate_limit_reset self)%Q) by reflexivity.
  exact (proj1 (proj2 (proj1 (rate_limit_wait "/users/octocat/repos" ∅ self net) H1 H2))).
Defined.

End GitHubProps.

(** ** A collection run *)

Module CollectorProps.
Import Mongo GitHub Collector.

(** The run over the scenario stores one repository, two commits, one
    contributor, one pull request, one issue and two comments; every comment
    carries the repository id and the number of the issue and no
    ['pull_request_id']. *)
Example end_to_end_scenario :
  exists w,
    collect_all_data ticking_clock str_scalar 5 "octocat" true scenario_world
    = Some (w, Ok tt) /\
    pending (network w) = [] /\
    length <$> [repositories (db (manager w)); commits (db (manager w));
                contributors (db (manager w)); pull_requests (db (manager w));
                issues (db (manager w)); comments (db (manager w))]
    = [1; 2; 1; 1; 1; 2]%nat /\
    Forall (fun d => d !! "repository_id" = Some (VInt 1296269) /\
                     d !! "issue_id" = Some (VInt 1) /\
                     d !! "pull_request_id" = None)
      (comments (db (manager w))) /\
    (requests (trace (network w))).*1
    = [ "https://api.github.com/users/octocat/repos";
        "https://api.github.com/repos/octocat/Hello-World/commits";
        "https://api.github.com/repos/octocat/Hello-World/contributors";
        "https://api.github.com/repos/octocat/Hello-World/pulls";
        "https://api.github.com/repos/octocat/Hello-World/issues";
        "https://api.github.com/repos/octocat/Hello-World/issues/1/comments";
        "https://api.github.com/repos/octocat/Hello-World/pulls/2/comments" ].
Proof.
  eexists. split; [by vm_compute|]. split; [by vm_compute|].
  split; [by vm_compute|]. split; [|by vm_compute].
  vm_compute. repeat constructor.
Qed.

End CollectorProps.

(** ** More on the store *)

Module MongoExtra.
Import Mongo MongoProps.

Section Calls.

Variable utcnow : nat -> Z.
Variable py_str : value -> string.

Lemma call_spec_coll c : ls_coll (call_spec py_str c) = call_collection c.
Proof. by destruct c. Qed.

Lemma call_spec_skip c r : ls_skip (call_spec py_str c) r = call_skips c r.
Proof. by destruct c. Qed.

Lemma call_spec_ret c : ls_ret (call_spec py_str c) = call_returned c.
Proof. by destruct c. Qed.

Lemma call_spec_keys c : ls_keys (call_spec py_str c) = natural_key (call_collection c).
Proof. by destruct c. Qed.

Lemma call_kept_kept c l : kept (call_spec py_str c) l = call_kept c l.
Proof.
  unfold kept, call_kept. induction l as [|r l IH]; [done|].
  cbn. by rewrite call_spec_skip, IH.
Qed.

(** *** One collection, documents kept *)

(** X1. A store method changes no collection but its own. *)
Theorem store_touches_one_collection (c : store_call) (self : MongoDBManager)
    (k : collection) :
  k <> call_collection c ->
  get_collection k (db (run_call utcnow py_str c self).1.1) = get_collection k (db self).
Proof.
  intros Hk. rewrite run_call_db. cbn zeta.
  rewrite call_spec_coll. by rewrite decide_False.
Qed.

(** What one [update_one] does to a document that was there: nothing, or,
    when the filter matched it, the fields sent written over it. *)
Lemma upsert_take flt upd c :
  Forall2 (fun d d' => d' = d \/ (flt ⊆ d /\ d' = upd ∪ d))
    c (take (length c) (upsert flt upd c)) /\
  (length c <= length (upsert flt upd c) <= S (length c))%nat.
Proof.
  induction c as [|d c [IH1 IH2]].
  - rewrite upsert_nil. cbn. split; [constructor|lia].
  - destruct (decide (flt ⊆ d)) as [Hd|Hd].
    + rewrite upsert_cons_hit by done. cbn [length take]. rewrite take_ge by lia.
      split; [|lia]. constructor; [by right|].
      apply Forall2_same_length_lookup. split; [done|].
      intros i x y ? ?. left. congruence.
    + rewrite upsert_cons_miss by done. cbn [length take].
      split; [|lia]. constructor; [by left|done].
Qed.

Lemma outlives_refl keys d : outlives keys d d.
Proof. by split. Qed.

Lemma outlives_trans keys d1 d2 d3 :
  outlives keys d1 d2 -> outlives keys d2 d3 -> outlives keys d1 d3.
Proof.
  intros [H1 H1'] [H2 H2']. split; [set_solver|].
  intros f Hf. by rewrite H2', H1'.
Qed.

Lemma outlives_write keys flt upd d :
  project keys upd = Ok flt -> flt ⊆ d -> outlives keys d (upd ∪ d).
Proof.
  intros Hp Hd. apply project_ok in Hp as [Hdom Hu]. split.
  - rewrite dom_union_L. apply union_subseteq_r.
  - intros f Hf.
    assert (is_Some (flt !! f)) as [v Hv].
    { apply elem_of_dom. rewrite Hdom. by apply elem_of_list_to_set. }
    rewrite (lookup_union_Some_l upd d f v) by (by eapply lookup_weaken).
    symmetry. by eapply lookup_weaken.
Qed.

Lemma upsert_all_take keys ws c :
  Forall (fun w => project keys (w_set w) = Ok (w_filter w)) ws ->
  Forall2 (outlives keys) c (take (length c) (upsert_all ws c)) /\
  (length c <= length (upsert_all ws c) <= length c + length ws)%nat.
Proof.
  intros Hws. revert c. induction Hws as [|w ws Hw _ IH]; intros c.
  - cbn. rewrite take_ge by lia. split; [|lia].
    apply Forall2_same_length_lookup. split; [done|].
    intros i x y ? ?. simplify_eq. apply outlives_refl.
  - rewrite upsert_all_cons.
    destruct (upsert_take (w_filter w) (w_set w) c) as [H1 H2].
    destruct (IH (upsert (w_filter w) (w_set w) c)) as [H3 H4].
    split; [|cbn [length]; lia].
    apply Forall2_same_length_lookup. split.
    { rewrite length_take. lia. }
    intros i d d3 Hd Hd3.
    destruct (Forall2_lookup_l _ _ _ i d H1 Hd) as (d2 & Hd2 & H12).
    apply lookup_take_Some in Hd2 as [Hd2 Hi].
    destruct (Forall2_lookup_l _ _ _ i d2 H3 Hd2) as (d3' & Hd3' & H23).
    apply lookup_take_Some in Hd3 as [Hd3 _].
    apply lookup_take_Some in Hd3' as [Hd3' _].
    simplify_eq. eapply outlives_trans; [|exact H23].
    destruct H12 as [->|[Hm ->]]; [apply outlives_refl|by eapply outlives_write].
Qed.

Lemma plan_projects s n recs :
  Forall (fun w => project (ls_keys s) (w_set w) = Ok (w_filter w)) (plan utcnow s n recs).
Proof.
  apply Forall_lookup. intros j w Hw.
  by apply plan_lookup in Hw as (r & _ & _ & _ & Hp & _).
Qed.

Lemma call_plan_length c self :
  (length (plan utcnow (call_spec py_str c) (clock_reads self) (call_records c))
   <= length (call_kept c (call_records c)))%nat.
Proof. rewrite <- (call_kept_kept c). apply plan_length_kept. Qed.

(** X2. A store method deletes nothing: after the call its collection is
    the documents that were there, each at its place, with every field it
    had before and the fields of its natural key unchanged, followed by new
    documents, at most one for each record that is not skipped. *)
Theorem store_keeps_documents (c : store_call) (self : MongoDBManager) :
  let before := get_collection (call_collection c) (db self) in
  let after := get_collection (call_collection c) (db (run_call utcnow py_str c self).1.1) in
  exists old_docs new_docs,
    after = old_docs ++ new_docs /\
    Forall2 (outlives (natural_key (call_collection c))) before old_docs /\
    (length new_docs <= length (call_kept c (call_records c)))%nat.
Proof.
  intros before after. unfold after. rewrite run_call_db. cbn zeta.
  rewrite call_spec_coll, decide_True by done. fold before.
  set (ws := plan utcnow (call_spec py_str c) (clock_reads self) (call_records c)).
  pose proof (call_plan_length c self) as Hlen. fold ws in Hlen.
  destruct (upsert_all_take (natural_key (call_collection c)) ws before) as [H1 H2].
  { rewrite <- (call_spec_keys c). apply plan_projects. }
  exists (take (length before) (upsert_all ws before)),
         (drop (length before) (upsert_all ws before)).
  split; [by rewrite take_drop|]. split; [done|].
  rewrite length_drop. lia.
Qed.

(** *** Natural keys *)

Lemma project_total keys d :
  (forall k, k ∈ keys -> is_Some (d !! k)) -> exists f, project keys d = Ok f.
Proof.
  induction keys as [|k keys IH]; intros H; [by eexists|].
  destruct (H k) as [v Hv]; [by apply elem_of_cons; left|].
  destruct IH as [f Hf]; [intros k' Hk'; apply H; by apply elem_of_cons; right|].
  cbn. rewrite Hv, Hf. by eexists.
Qed.

Lemma project_of_subseteq keys f d :
  f ⊆ d -> dom f = list_to_set keys -> project keys d = Ok f.
Proof.
  intros Hf Hdom.
  destruct (project_total keys d) as [f' Hf'].
  { intros k Hk. assert (is_Some (f !! k)) as [v Hv].
    { apply elem_of_dom. rewrite Hdom. by apply elem_of_list_to_set. }
    exists v. by eapply lookup_weaken. }
  rewrite Hf'. f_equal. apply project_ok in Hf' as [Hdom' Hsub'].
  symmetry. eapply subseteq_same_dom; [|done|done]. congruence.
Qed.

Lemma project_union_hit keys flt upd d :
  project keys upd = Ok flt -> flt ⊆ d -> project keys (upd ∪ d) = Ok flt.
Proof.
  intros Hp Hd. apply project_ok in Hp as [Hdom Hu].
  apply project_of_subseteq; [|done]. by apply subseteq_union_l.
Qed.

Lemma upsert_keys keys flt upd c :
  project keys upd = Ok flt ->
  project keys <$> upsert flt upd c
  = (project keys <$> c) ++ (if decide (has_match flt c) then [] else [Ok flt]).
Proof.
  intros Hp. pose proof (project_ok _ _ _ Hp) as [Hdom Hu].
  induction c as [|d c IH].
  - rewrite upsert_nil, union_absorb_r by done. cbn.
    rewrite Hp. rewrite decide_False; [done|]. by intros ?%Exists_nil.
  - destruct (decide (flt ⊆ d)) as [Hd|Hd].
    + rewrite upsert_cons_hit by done. rewrite !fmap_cons.
      rewrite (project_union_hit keys flt upd d Hp Hd).
      rewrite (project_of_subseteq keys flt d Hd Hdom).
      rewrite decide_True by (by constructor). by rewrite app_nil_r.
    + rewrite upsert_cons_miss by done. rewrite !fmap_cons, IH. cbn [app].
      do 2 f_equal. unfold has_match.
      destruct (decide (Exists (λ d0 : doc, flt ⊆ d0) c)) as [He|He].
      * rewrite decide_True; [done|]. by apply Exists_cons_tl.
      * rewrite decide_False; [done|]. by intros [?|?]%Exists_cons.
Qed.

Lemma unique_keys_fmap keys c :
  unique_keys keys c <->
  (forall i j f, (project keys <$> c) !! i = Some (Ok f) ->
                 (project keys <$> c) !! j = Some (Ok f) -> i = j).
Proof.
  unfold unique_keys. split.
  - intros H i j f Hi Hj. rewrite list_lookup_fmap in Hi, Hj.
    destruct (c !! i) as [d|] eqn:Ei; [|done].
    destruct (c !! j) as [d'|] eqn:Ej; [|done].
    cbn in Hi, Hj. simplify_eq. by eapply (H i j d d' f).
  - intros H i j d d' f Hi Hj Hd Hd'. apply (H i j f).
    + by rewrite list_lookup_fmap, Hi; cbn; rewrite Hd.
    + by rewrite list_lookup_fmap, Hj; cbn; rewrite Hd'.
Qed.

Lemma upsert_unique keys flt upd c :
  project keys upd = Ok flt -> unique_keys keys c -> unique_keys keys (upsert flt upd c).
Proof.
  intros Hp. rewrite !unique_keys_fmap, (upsert_keys keys flt upd c Hp).
  intros H. destruct (decide (has_match flt c)) as [Hm|Hm].
  { by rewrite app_nil_r. }
  assert (Hnew : forall i, (project keys <$> c) !! i <> Some (Ok flt)).
  { intros i Hi. apply Hm. rewrite list_lookup_fmap in Hi.
    destruct (c !! i) as [d|] eqn:Ei; [|done]. cbn in Hi.
    assert (Hd : project keys d = Ok flt) by congruence.
    apply Exists_exists. exists d. split; [by eapply list_elem_of_lookup_2|].
    by apply project_ok in Hd as [_ ?]. }
  intros i j f Hi Hj.
  apply lookup_app_Some in Hi as [Hi|[Hil Hi]];
    apply lookup_app_Some in Hj as [Hj|[Hjl Hj]].
  - by eapply H.
  - apply list_lookup_singleton_Some in Hj as [_ Hj]. simplify_eq. by destruct (Hnew i).
  - apply list_lookup_singleton_Some in Hi as [_ Hi]. simplify_eq. by destruct (Hnew j).
  - apply list_lookup_singleton_Some in Hi as [Hi _].
    apply list_lookup_singleton_Some in Hj as [Hj _]. lia.
Qed.

Lemma upsert_all_unique keys ws c :
  Forall (fun w => project keys (w_set w) = Ok (w_filter w)) ws ->
  unique_keys keys c -> unique_keys keys (upsert_all ws c).
Proof.
  intros Hws. revert c. induction Hws as [|w ws Hw _ IH]; intros c Hc; [done|].
  rewrite upsert_all_cons. apply IH. by apply upsert_unique.
Qed.

(** X3. A store method creates no duplicate: when no two documents of its
    collection share a natural key before the call, none do after it. *)
Theorem store_keeps_keys_unique (c : store_call) (self : MongoDBManager) :
  unique_keys (natural_key (call_collection c))
    (get_collection (call_collection c) (db self)) ->
  unique_keys (natural_key (call_collection c))
    (get_collection (call_collection c) (db (run_call utcnow py_str c self).1.1)).
Proof.
  intros H. rewrite run_call_db. cbn zeta.
  rewrite call_spec_coll, decide_True by done.
  apply upsert_all_unique; [|done].
  rewrite <- (call_spec_keys c). apply plan_projects.
Qed.

(** *** Records, one after the other *)

Lemma prepare_stored_form c t r : prepare (call_spec py_str c) t r = stored_form c t r.
Proof.
  unfold prepare, stored_form.
  destruct c as [l|rid l|rid l|rid l|rid l|rid l i p]; cbn; try done.
  unfold comment_links. by destruct (truthy i), (truthy p).
Qed.

Lemma stored_form_other c t r f :
  f ∉ ["collected_at"; "repository_id"; "issue_id"; "pull_request_id"] ->
  stored_form c t r !! f = r !! f.
Proof.
  intros Hf. repeat (apply not_elem_of_cons in Hf as [? Hf]).
  unfold stored_form.
  destruct c as [l|rid l|rid l|rid l|rid l|rid l i p]; cbn;
    repeat case_match; by rewrite ?lookup_insert_ne by done.
Qed.

Lemma stored_form_key c t r : stored_form c t r !! call_key c = r !! call_key c.
Proof.
  apply stored_form_other.
  destruct c; cbn;
    by repeat (first [apply not_elem_of_nil | apply not_elem_of_cons; split; [done|]]).
Qed.

Lemma stored_form_returned c t r :
  stored_form c t r !! call_returned c = r !! call_returned c.
Proof.
  apply stored_form_other.
  destruct c; cbn;
    by repeat (first [apply not_elem_of_nil | apply not_elem_of_cons; split; [done|]]).
Qed.

Lemma stored_form_repository_id c t r rid :
  call_repository_id c = Some rid -> stored_form c t r !! "repository_id" = Some rid.
Proof.
  unfold stored_form.
  destruct c as [l|rid' l|rid' l|rid' l|rid' l|rid' l i p]; cbn; intros ?; simplify_eq;
    repeat case_match;
    repeat (rewrite lookup_insert_ne by done); by rewrite lookup_insert_eq.
Qed.

Lemma stored_form_collected_at c t r :
  stored_form c t r !! "collected_at" = Some (VTime t).
Proof.
  rewrite <- prepare_stored_form. apply prepare_stamp, call_spec_ok.
Qed.

(** The filter of a record that has its key field, the [KeyError] of one
    that has not. *)
Lemma project_stored_form c t r :
  project (ls_keys (call_spec py_str c)) (stored_form c t r)
  = match r !! call_key c with
    | Some v => Ok (key_filter c v)
    | None => Raise (KeyError (call_key c))
    end.
Proof.
  pose proof (stored_form_key c t r) as Hk.
  pose proof (fun rid => stored_form_repository_id c t r rid) as Hrid.
  destruct c as [l|rid l|rid l|rid l|rid l|rid l i p];
    cbn [call_spec ls_keys project call_key key_filter] in *;
    rewrite Hk; try rewrite (Hrid rid eq_refl);
    destruct (r !! _); try done; by rewrite ?insert_empty.
Qed.

Lemma run_loop_app s l1 l2 acc self :
  run_loop utcnow s (l1 ++ l2) acc self
  = match run_loop utcnow s l1 acc self with
    | (self1, l1', Ok keys) =>
        let '(self2, l2', r) := run_loop utcnow s l2 keys self1 in
        (self2, l1' ++ l2', r)
    | (self1, l1', Raise e) => (self1, l1' ++ l2, Raise e)
    end.
Proof.
  revert acc self. induction l1 as [|r l1 IH]; intros acc self.
  - cbn. by destruct (run_loop utcnow s l2 acc self) as [[? ?] ?].
  - cbn [app run_loop]. destruct (ls_skip s r).
    + rewrite IH. destruct (run_loop utcnow s l1 acc self) as [[self1 l1'] [keys|e]]; [|done].
      by destruct (run_loop utcnow s l2 keys self1) as [[? ?] ?].
    + cbn [_add_timestamp]. destruct (project _ _) as [f|e]; [|done].
      destruct (_ !! ls_ret s) as [v|]; [|done].
      rewrite IH.
      match goal with |- context [run_loop utcnow s l1 ?a ?st] =>
        destruct (run_loop utcnow s l1 a st) as [[self1 l1'] [keys|e]]; [|done]
      end.
      by destruct (run_loop utcnow s l2 keys self1) as [[? ?] ?].
Qed.

Lemma run_loop_acc s l acc self :
  run_loop utcnow s l acc self
  = let '(self', l', r) := run_loop utcnow s l [] self in
    (self', l', match r with Ok keys => Ok (acc ++ keys) | Raise e => Raise e end).
Proof.
  revert acc self. induction l as [|r l IH]; intros acc self.
  - cbn. by rewrite app_nil_r.
  - cbn [run_loop]. destruct (ls_skip s r).
    + rewrite IH. by destruct (run_loop utcnow s l [] self) as [[? ?] [?|?]].
    + cbn [_add_timestamp]. destruct (project _ _) as [f|e]; [|done].
      destruct (_ !! ls_ret s) as [v|]; [|done].
      rewrite IH.
      match goal with |- context [run_loop utcnow s l (?a ++ ?b) ?st] =>
        rewrite (IH ([] ++ b) st)
      end.
      match goal with |- context [run_loop utcnow s l [] ?st] =>
        destruct (run_loop utcnow s l [] st) as [[? ?] [?|?]]; [|done]
      end.
      by rewrite <- (assoc_L (++)).
Qed.

(** One step of a loop on a record that is stepped over, on one that has
    its fields, and on one that lacks its key field. *)
Lemma run_loop_skip c r rest acc self :
  call_skips c r = true ->
  run_loop utcnow (call_spec py_str c) (r :: rest) acc self
  = let '(self', rest', res) := run_loop utcnow (call_spec py_str c) rest acc self in
    (self', r :: rest', res).
Proof. intros H. cbn [run_loop]. by rewrite call_spec_skip, H. Qed.

Lemma run_loop_store c r rest acc self v k :
  call_skips c r = false -> r !! call_key c = Some v -> r !! call_returned c = Some k ->
  run_loop utcnow (call_spec py_str c) (r :: rest) acc self
  = let t := utcnow (clock_reads self) in
    let self1 :=
      update_one (call_collection c) (key_filter c v) (stored_form c t r)
        {| db := db self; clock_reads := S (clock_reads self); oplog := oplog self |} in
    let '(self', rest', res) :=
      run_loop utcnow (call_spec py_str c) rest (acc ++ [returned_key py_str c k]) self1 in
    (self', stored_form c t r :: rest', res).
Proof.
  intros Hs Hv Hk. cbn [run_loop _add_timestamp]. rewrite call_spec_skip, Hs.
  fold (prepare (call_spec py_str c) (utcnow (clock_reads self)) r).
  rewrite prepare_stored_form, project_stored_form, Hv.
  rewrite call_spec_ret, stored_form_returned, Hk, call_spec_coll.
  by destruct c.
Qed.

Lemma run_loop_no_key c r rest acc self :
  call_skips c r = false -> r !! call_key c = None ->
  run_loop utcnow (call_spec py_str c) (r :: rest) acc self
  = ({| db := db self; clock_reads := S (clock_reads self); oplog := oplog self |},
     stored_form c (utcnow (clock_reads self)) r :: rest,
     Raise (KeyError (call_key c))).
Proof.
  intros Hs Hv. cbn [run_loop _add_timestamp]. rewrite call_spec_skip, Hs.
  fold (prepare (call_spec py_str c) (utcnow (clock_reads self)) r).
  by rewrite prepare_stored_form, project_stored_form, Hv.
Qed.

Lemma run_loop_no_returned c r rest acc self v :
  call_skips c r = false -> r !! call_key c = Some v -> r !! call_returned c = None ->
  run_loop utcnow (call_spec py_str c) (r :: rest) acc self
  = let t := utcnow (clock_reads self) in
    (update_one (call_collection c) (key_filter c v) (stored_form c t r)
       {| db := db self; clock_reads := S (clock_reads self); oplog := oplog self |},
     stored_form c t r :: rest,
     Raise (KeyError (call_returned c))).
Proof.
  intros Hs Hv Hk. cbn [run_loop _add_timestamp]. rewrite call_spec_skip, Hs.
  fold (prepare (call_spec py_str c) (utcnow (clock_reads self)) r).
  rewrite prepare_stored_form, project_stored_form, Hv.
  by rewrite call_spec_ret, stored_form_returned, Hk, call_spec_coll.
Qed.

Lemma call_kept_cons_skip c r l :
  call_skips c r = true -> call_kept c (r :: l) = call_kept c l.
Proof. intros H. unfold call_kept. cbn. by rewrite H. Qed.

Lemma call_kept_cons_keep c r l :
  call_skips c r = false -> call_kept c (r :: l) = r :: call_kept c l.
Proof. intros H. unfold call_kept. cbn. by rewrite H. Qed.

Lemma run_loop_storable c recs acc self :
  Forall (storable c) recs ->
  exists self' recs' keys ws,
    run_loop utcnow (call_spec py_str c) recs acc self = (self', recs', Ok (acc ++ keys)) /\
    clock_reads self' = (clock_reads self + length (call_kept c recs))%nat /\
    Forall2 (fun k r => exists v, r !! call_returned c = Some v /\ k = returned_key py_str c v)
      keys (call_kept c recs) /\
    oplog self' = oplog self ++ ws /\ db self' = apply_writes ws (db self) /\
    length ws = length (call_kept c recs) /\
    forall j r, call_kept c recs !! j = Some r ->
      exists v, r !! call_key c = Some v /\
        ws !! j = Some (sent_write c (utcnow (clock_reads self + j)%nat) r v).
Proof.
  intros H. revert acc self. induction H as [|r recs Hr _ IH]; intros acc self.
  - exists self, [], [], []. cbn. rewrite !app_nil_r, Nat.add_0_r.
    repeat split; try done.
  - destruct (call_skips c r) eqn:Hs.
    + rewrite run_loop_skip by done. rewrite call_kept_cons_skip by done.
      destruct (IH acc self) as (self' & recs' & keys & ws & Hrun & Hrest).
      rewrite Hrun. by exists self', (r :: recs'), keys, ws.
    + destruct (Hr Hs) as [[v Hv] [k Hk]].
      rewrite (run_loop_store c r recs acc self v k) by done.
      rewrite call_kept_cons_keep by done. cbn zeta.
      match goal with |- context [run_loop utcnow _ recs ?a ?st] =>
        destruct (IH a st) as (self' & recs' & keys & ws & Hrun & Hclock & Hkeys
                               & Hlog & Hdb & Hlen & Hws)
      end.
      rewrite Hrun. cbn in Hclock, Hlog, Hdb.
      eexists self', _, (returned_key py_str c k :: keys),
        (sent_write c (utcnow (clock_reads self)) r v :: ws).
      split; [by rewrite <- (assoc_L (++))|].
      split; [cbn [length]; lia|].
      split; [constructor; [by exists k|done]|].
      split; [by rewrite Hlog, <- (assoc_L (++))|].
      split; [by rewrite Hdb|].
      split; [cbn [length]; lia|].
      intros j r' Hj. destruct j as [|j]; cbn in Hj.
      * simplify_eq. exists v. split; [done|]. by rewrite Nat.add_0_r.
      * destruct (Hws j r' Hj) as (v' & Hv' & Hw). exists v'. split; [done|].
        replace (clock_reads self + S j)%nat with (S (clock_reads self) + j)%nat by lia.
        exact Hw.
Qed.

(** X4. On records that all have their fields a store method returns
    normally: it reads the clock once for each record it does not step over,
    sends for each of them, in order, one [update_one] whose filter is made
    of the key field (with the repository id for commits and contributors)
    and whose [$set] is the record with the timestamp of its own reading and
    the injected fields, and returns one key for each, in order. *)
Theorem store_storable_records (c : store_call) (self : MongoDBManager) :
  Forall (storable c) (call_records c) ->
  let out := run_call utcnow py_str c self in
  let stored := call_kept c (call_records c) in
  exists keys ws,
    out.2 = Ok keys /\
    Forall2 (fun k r => exists v, r !! call_returned c = Some v /\ k = returned_key py_str c v)
      keys stored /\
    clock_reads out.1.1 = (clock_reads self + length stored)%nat /\
    oplog out.1.1 = oplog self ++ ws /\ db out.1.1 = apply_writes ws (db self) /\
    length ws = length stored /\
    forall j r, stored !! j = Some r ->
      exists v, r !! call_key c = Some v /\
        ws !! j = Some (sent_write c (utcnow (clock_reads self + j)%nat) r v).
Proof.
  intros H out stored. unfold out. rewrite run_call_shape, run_spec_loop.
  destruct (run_loop_storable c (call_records c) [] self H)
    as (self' & recs' & keys & ws & Hrun & Hclock & Hkeys & Hrest).
  rewrite Hrun. exists keys, ws. cbn [fst snd app].
  split; [done|]. split; [done|]. split; [done|]. exact Hrest.
Qed.

(** *** Records without their fields *)

Lemma run_call_loop c l self :
  run_call utcnow py_str (with_records c l) self
  = run_loop utcnow (call_spec py_str c) l [] self.
Proof.
  by rewrite run_call_shape, run_spec_loop, call_spec_with_records,
    call_records_with_records.
Qed.

(** X5. A record without the field its filter needs ends the call with
    [KeyError]: the records before it are stored as by a call on them alone,
    the record itself has been given its timestamp (the clock is read once
    for it) but no [update_one] is sent for it, and the records after it are
    left as they were. *)
Theorem missing_key_aborts_batch (c : store_call) (good : list doc) (bad : doc)
    (rest : list doc) (self : MongoDBManager) :
  Forall (storable c) good -> call_skips c bad = false -> bad !! call_key c = None ->
  let ok := run_call utcnow py_str (with_records c good) self in
  let out := run_call utcnow py_str (with_records c (good ++ bad :: rest)) self in
  out.2 = Raise (KeyError (call_key c)) /\
  db out.1.1 = db ok.1.1 /\ oplog out.1.1 = oplog ok.1.1 /\
  clock_reads out.1.1 = S (clock_reads ok.1.1) /\
  out.1.2 = ok.1.2 ++ stored_form c (utcnow (clock_reads ok.1.1)) bad :: rest.
Proof.
  intros Hgood Hs Hk ok out. unfold ok, out. rewrite !run_call_loop, run_loop_app.
  destruct (run_loop_storable c good [] self Hgood)
    as (self' & recs' & keys & ws & Hrun & _).
  rewrite Hrun. cbn [app]. by rewrite run_loop_no_key.
Qed.

(** X6. A record that has the field of the filter but not the field the
    method returns (a pull request or an issue without ['number']) is stored
    before the call ends with [KeyError]: its [update_one] is sent and applied
    after those of the records before it. *)
Theorem missing_returned_field_is_stored (c : store_call) (good : list doc) (bad : doc)
    (rest : list doc) (self : MongoDBManager) (v : value) :
  Forall (storable c) good -> call_skips c bad = false ->
  bad !! call_key c = Some v -> bad !! call_returned c = None ->
  let ok := run_call utcnow py_str (with_records c good) self in
  let out := run_call utcnow py_str (with_records c (good ++ bad :: rest)) self in
  let w := sent_write c (utcnow (clock_reads ok.1.1)) bad v in
  out.2 = Raise (KeyError (call_returned c)) /\
  oplog out.1.1 = oplog ok.1.1 ++ [w] /\
  db out.1.1 = apply_write w (db ok.1.1).
Proof.
  intros Hgood Hs Hv Hk ok out w. unfold w, ok, out.
  rewrite !run_call_loop, run_loop_app.
  destruct (run_loop_storable c good [] self Hgood)
    as (self' & recs' & keys & ws & Hrun & _).
  rewrite Hrun. cbn [app fst snd].
  rewrite (run_loop_no_returned c bad rest keys self' v) by done.
  cbn zeta. cbn [fst snd]. repeat split.
Qed.

(** X7. A batch can be split: storing [l1 ++ l2], when the records of
    [l1] have their fields, leaves the manager as storing [l1] and then [l2]
    does, hands back the two lists of records one after the other, and
    returns the keys of [l1] followed by those of [l2], or raises what the
    call on [l2] raises. *)
Theorem store_batch_splits (c : store_call) (l1 l2 : list doc) (self : MongoDBManager) :
  Forall (storable c) l1 ->
  let first := run_call utcnow py_str (with_records c l1) self in
  let second := run_call utcnow py_str (with_records c l2) first.1.1 in
  let whole := run_call utcnow py_str (with_records c (l1 ++ l2)) self in
  whole.1.1 = second.1.1 /\
  whole.1.2 = first.1.2 ++ second.1.2 /\
  exists keys1,
    first.2 = Ok keys1 /\
    whole.2 = match second.2 with
              | Ok keys2 => Ok (keys1 ++ keys2)
              | Raise e => Raise e
              end.
Proof.
  intros H1 first second whole. unfold whole, second, first.
  rewrite !run_call_loop, run_loop_app.
  destruct (run_loop_storable c l1 [] self H1)
    as (self' & recs' & keys & ws & Hrun & _).
  rewrite Hrun. cbn [app fst snd]. rewrite (run_loop_acc _ l2 keys self').
  destruct (run_loop utcnow (call_spec py_str c) l2 [] self') as [[self2 l2'] r].
  cbn [fst snd]. split; [done|]. split; [done|]. by exists keys.
Qed.

(** *** The caller's records *)

Lemma run_loop_left s recs acc self keys :
  (run_loop utcnow s recs acc self).2 = Ok keys ->
  Forall2 (fun r r' => if ls_skip s r then r' = r else exists t, r' = prepare s t r)
    recs (run_loop utcnow s recs acc self).1.2.
Proof.
  revert acc self. induction recs as [|r recs IH]; intros acc self H; [constructor|].
  cbn [run_loop] in H |- *. destruct (ls_skip s r) eqn:Hs.
  - specialize (IH acc self).
    destruct (run_loop utcnow s recs acc self) as [[self1 recs1] res].
    constructor; [by rewrite Hs|by apply IH].
  - cbn [_add_timestamp] in H |- *.
    destruct (project _ _) as [f|e]; [|done].
    destruct (_ !! ls_ret s) as [v|]; [|done].
    match goal with |- context [run_loop utcnow s recs ?a ?st] =>
      specialize (IH a st); destruct (run_loop utcnow s recs a st) as [[self1 recs1] res]
    end.
    constructor; [rewrite Hs; by eexists|by apply IH].
Qed.

(** X8. The store methods write into the records they are given: after
    a call each record of the caller's list is as it was or carries the
    timestamp and the injected fields, and after a call that returns normally
    exactly the records that are not stepped over do.  Only these fields
    differ. *)
Theorem store_writes_into_records (c : store_call) (self : MongoDBManager) :
  let out := run_call utcnow py_str c self in
  Forall2 (fun r r' => r' = r \/ exists t, r' = stored_form c t r)
    (call_records c) out.1.2 /\
  (forall keys, out.2 = Ok keys ->
     Forall2 (fun r r' => if call_skips c r then r' = r else exists t, r' = stored_form c t r)
       (call_records c) out.1.2) /\
  (forall t r f,
     f ∉ ["collected_at"; "repository_id"; "issue_id"; "pull_request_id"] ->
     stored_form c t r !! f = r !! f).
Proof.
  intros out. split; [|split].
  - eapply Forall2_impl; [apply run_call_records|].
    intros r r' [->|[t ->]]; [by left|]. right. exists t. apply prepare_stored_form.
  - intros keys Hk. unfold out in *. rewrite run_call_shape, run_spec_loop in Hk |- *.
    eapply Forall2_impl; [by eapply run_loop_left|].
    intros r r'. cbn beta. rewrite call_spec_skip.
    destruct (call_skips c r); [done|]. intros [t ->]. exists t.
    apply prepare_stored_form.
  - intros t r f. apply stored_form_other.
Qed.

(** *** An empty collection *)

Lemma upsert_all_fresh K ws c :
  Forall (keyed K) ws -> NoDup (w_filter <$> ws) ->
  Forall (fun w => ¬ has_match (w_filter w) c) ws ->
  upsert_all ws c = c ++ (w_set <$> ws).
Proof.
  intros Hws. revert c.
  induction Hws as [|w ws [Hw1 Hw2] Hws IH]; intros c Hnd Hc.
  - cbn. by rewrite app_nil_r.
  - rewrite fmap_cons in Hnd. apply NoDup_cons in Hnd as [Hnin Hnd].
    apply Forall_cons in Hc as [Hw Hc].
    rewrite upsert_all_cons, upsert_miss, union_absorb_r by done.
    rewrite IH; [by rewrite fmap_cons, <- (assoc_L (++))|done|].
    rewrite Forall_forall in Hws, Hc |- *. intros w' Hin.
    unfold has_match. rewrite Exists_app. intros [Hm|Hm].
    + by apply (Hc w' Hin).
    + apply Exists_cons in Hm as [Hm|Hm]; [|by apply Exists_nil in Hm].
      destruct (Hws w' Hin) as [Hd' _].
      apply Hnin. apply list_elem_of_fmap. exists w'. split; [|done].
      eapply subseteq_same_dom; [|exact Hw2|exact Hm]. congruence.
Qed.

Lemma key_filter_inj c v v' : key_filter c v = key_filter c v' -> v = v'.
Proof.
  intros H. assert (Hk : key_filter c v !! call_key c = key_filter c v' !! call_key c)
    by by rewrite H.
  destruct c; cbn in Hk; by simplify_map_eq.
Qed.

(** X9. Stored into an empty collection, records that have their fields
    and pairwise different key fields give the collection of these records,
    in order, each with the timestamp of its own clock reading and the
    injected fields. *)
Theorem store_into_empty_collection (c : store_call) (self : MongoDBManager) :
  get_collection (call_collection c) (db self) = [] ->
  Forall (storable c) (call_records c) ->
  NoDup ((fun r => r !! call_key c) <$> call_kept c (call_records c)) ->
  get_collection (call_collection c) (db (run_call utcnow py_str c self).1.1)
  = imap (fun j r => stored_form c (utcnow (clock_reads self + j)%nat) r)
      (call_kept c (call_records c)).
Proof.
  intros Hempty Hst Hnd.
  destruct (run_loop_storable c (call_records c) [] self Hst)
    as (self' & recs' & keys & ws & Hrun & _ & _ & Hlog & Hdb & Hlen & Hws).
  rewrite run_call_shape, run_spec_loop, Hrun. cbn [fst snd].
  destruct (run_call_plan utcnow py_str c self) as (Hlog' & _ & _). cbn zeta in Hlog'.
  rewrite run_call_shape, run_spec_loop, Hrun in Hlog'. cbn [fst snd] in Hlog'.
  rewrite Hlog in Hlog'. apply app_inv_head in Hlog'.
  assert (Hkeyed : Forall (keyed (key_set (call_spec py_str c))) ws).
  { rewrite Hlog'. apply plan_keyed. }
  assert (Hcoll : Forall (fun w => w_coll w = call_collection c) ws).
  { rewrite Hlog', <- call_spec_coll. apply plan_coll. }
  rewrite Hdb, (apply_writes_same (call_collection c)) by done.
  rewrite Hempty.
  assert (Hat : forall j w, ws !! j = Some w ->
            exists r v, call_kept c (call_records c) !! j = Some r /\
                        r !! call_key c = Some v /\
                        w = sent_write c (utcnow (clock_reads self + j)%nat) r v).
  { intros j w Hj.
    destruct (call_kept c (call_records c) !! j) as [r|] eqn:Er.
    - destruct (Hws j r Er) as (v & Hv & Hw). exists r, v.
      split; [done|]. split; [done|]. congruence.
    - apply lookup_ge_None in Er. apply lookup_lt_Some in Hj. lia. }
  rewrite (upsert_all_fresh (key_set (call_spec py_str c))); try done.
  - cbn [app]. apply list_eq. intros j.
    rewrite list_lookup_fmap, list_lookup_imap.
    destruct (ws !! j) as [w|] eqn:Ej.
    + destruct (Hat j w Ej) as (r & v & Hr & _ & ->). by rewrite Hr.
    + apply lookup_ge_None in Ej. rewrite Hlen in Ej.
      apply lookup_ge_None in Ej. by rewrite Ej.
  - apply NoDup_alt. intros i j f Hi Hj.
    rewrite list_lookup_fmap in Hi, Hj.
    destruct (ws !! i) as [wi|] eqn:Ei; [|done].
    destruct (ws !! j) as [wj|] eqn:Ej; [|done].
    destruct (Hat i wi Ei) as (ri & vi & Hri & Hvi & ->).
    destruct (Hat j wj Ej) as (rj & vj & Hrj & Hvj & ->).
    unfold sent_write in Hi, Hj. cbn [fmap option_fmap option_map w_filter] in Hi, Hj.
    assert (vi = vj) as -> by (apply (key_filter_inj c); congruence).
    rewrite NoDup_alt in Hnd. apply (Hnd i j (Some vj)).
    + by rewrite list_lookup_fmap, Hri; cbn; rewrite Hvi.
    + by rewrite list_lookup_fmap, Hrj; cbn; rewrite Hvj.
  - apply Forall_forall. intros w _ Hm. by apply Exists_nil in Hm.
Qed.

(** *** Found again *)

Lemma upsert_elem_keep flt upd c d :
  d ∈ c -> ¬ flt ⊆ d -> d ∈ upsert flt upd c.
Proof.
  intros Hin Hd. induction c as [|d0 c IH]; [by apply elem_of_nil in Hin|].
  apply elem_of_cons in Hin as [->|Hin].
  - rewrite upsert_cons_miss by done. by apply elem_of_cons; left.
  - destruct (decide (flt ⊆ d0)).
    + rewrite upsert_cons_hit by done. by apply elem_of_cons; right.
    + rewrite upsert_cons_miss by done. apply elem_of_cons; right. by apply IH.
Qed.

Lemma upsert_all_found K ws c j w :
  Forall (keyed K) ws -> NoDup (w_filter <$> ws) -> ws !! j = Some w ->
  exists d, d ∈ upsert_all ws c /\ w_set w ⊆ d.
Proof.
  intros Hws. revert c j.
  induction Hws as [|w0 ws [Hw1 Hw2] Hws IH]; intros c j Hnd Hj;
    [by rewrite lookup_nil in Hj|].
  rewrite fmap_cons in Hnd. apply NoDup_cons in Hnd as [Hnin Hnd].
  rewrite upsert_all_cons. destruct j as [|j]; [|by eapply IH].
  cbn in Hj. simplify_eq.
  destruct (upsert_written (w_filter w) (w_set w) c) as (d & Hin & Hsub).
  exists d. split; [|done].
  clear IH. revert Hin. generalize (upsert (w_filter w) (w_set w) c). intros c1 Hin.
  revert c1 Hin. induction ws as [|w' ws IH']; intros c1 Hin; [done|].
  rewrite upsert_all_cons.
  apply Forall_cons in Hws as [[Hd' Hs'] Hws].
  rewrite fmap_cons in Hnin, Hnd. apply not_elem_of_cons in Hnin as [Hne Hnin].
  apply NoDup_cons in Hnd as [_ Hnd].
  apply IH'; try done. apply upsert_elem_keep; [done|].
  intros Hm. apply Hne.
  eapply subseteq_same_dom; [|by etrans|exact Hm]. congruence.
Qed.

(** X10. What is stored is found again: after a call on records that have
    their fields and pairwise different key fields, whatever the collection
    held before, each record that is not stepped over is in a document of the
    collection with all its fields, the timestamp of its own clock reading and
    the injected fields. *)
Theorem stored_records_are_found (c : store_call) (self : MongoDBManager) :
  Forall (storable c) (call_records c) ->
  NoDup ((fun r => r !! call_key c) <$> call_kept c (call_records c)) ->
  forall j r, call_kept c (call_records c) !! j = Some r ->
    exists d,
      d ∈ get_collection (call_collection c) (db (run_call utcnow py_str c self).1.1) /\
      stored_form c (utcnow (clock_reads self + j)%nat) r ⊆ d.
Proof.
  intros Hst Hnd j r Hr.
  destruct (run_loop_storable c (call_records c) [] self Hst)
    as (self' & recs' & keys & ws & Hrun & _ & _ & Hlog & Hdb & Hlen & Hws).
  rewrite run_call_shape, run_spec_loop, Hrun. cbn [fst snd].
  destruct (run_call_plan utcnow py_str c self) as (Hlog' & _ & _). cbn zeta in Hlog'.
  rewrite run_call_shape, run_spec_loop, Hrun in Hlog'. cbn [fst snd] in Hlog'.
  rewrite Hlog in Hlog'. apply app_inv_head in Hlog'.
  assert (Hkeyed : Forall (keyed (key_set (call_spec py_str c))) ws).
  { rewrite Hlog'. apply plan_keyed. }
  assert (Hcoll : Forall (fun w => w_coll w = call_collection c) ws).
  { rewrite Hlog', <- call_spec_coll. apply plan_coll. }
  rewrite Hdb, (apply_writes_same (call_collection c)) by done.
  destruct (Hws j r Hr) as (v & Hv & Hw).
  assert (Hat : forall j w, ws !! j = Some w ->
            exists r v, call_kept c (call_records c) !! j = Some r /\
                        r !! call_key c = Some v /\
                        w = sent_write c (utcnow (clock_reads self + j)%nat) r v).
  { intros i w Hi.
    destruct (call_kept c (call_records c) !! i) as [r'|] eqn:Er.
    - destruct (Hws i r' Er) as (v' & Hv' & Hw'). exists r', v'.
      split; [done|]. split; [done|]. congruence.
    - apply lookup_ge_None in Er. apply lookup_lt_Some in Hi. lia. }
  destruct (fun H => upsert_all_found (key_set (call_spec py_str c)) ws
              (get_collection (call_collection c) (db self)) j _ Hkeyed H Hw)
    as (d & Hin & Hsub); [|by exists d].
  apply NoDup_alt. intros i1 i2 f Hi1 Hi2.
  rewrite list_lookup_fmap in Hi1, Hi2.
  destruct (ws !! i1) as [w1|] eqn:E1; [|done].
  destruct (ws !! i2) as [w2|] eqn:E2; [|done].
  destruct (Hat i1 w1 E1) as (r1 & v1 & Hr1 & Hv1 & ->).
  destruct (Hat i2 w2 E2) as (r2 & v2 & Hr2 & Hv2 & ->).
  unfold sent_write in Hi1, Hi2. cbn [fmap option_fmap option_map w_filter] in Hi1, Hi2.
  assert (v1 = v2) as -> by (apply (key_filter_inj c); congruence).
  rewrite NoDup_alt in Hnd. apply (Hnd i1 i2 (Some v2)).
  - by rewrite list_lookup_fmap, Hr1; cbn; rewrite Hv1.
  - by rewrite list_lookup_fmap, Hr2; cbn; rewrite Hv2.
Qed.

End Calls.

(** *** The theorems at sample calls *)

Lemma storable_commits :
  Forall (storable (StoreCommits (VInt 1296269) [hello_commit; world_commit]))
    [hello_commit; world_commit].
Proof. repeat constructor; by vm_compute; eexists. Qed.

Lemma store_touches_one_collection_witness :
  get_collection Repositories
    (db (run_call ticking_clock str_scalar
           (StoreCommits (VInt 1296269) [hello_commit; world_commit]) seeded_manager).1.1)
  = get_collection Repositories (db seeded_manager).
Proof.
  apply (store_touches_one_collection ticking_clock str_scalar
           (StoreCommits (VInt 1296269) [hello_commit; world_commit]) seeded_manager
           Repositories).
  discriminate.
Defined.

Lemma seeded_manager_unique :
  unique_keys (natural_key Commits) (get_collection Commits (db seeded_manager)).
Proof.
  intros i j d d' f Hi Hj _ _.
  apply lookup_lt_Some in Hi, Hj. cbn in Hi, Hj. lia.
Qed.

Lemma store_keeps_keys_unique_witness :
  unique_keys (natural_key Commits)
    (get_collection Commits
       (db (run_call ticking_clock str_scalar
              (StoreCommits (VInt 1296269) [hello_commit; world_commit])
              seeded_manager).1.1)).
Proof.
  apply (store_keeps_keys_unique ticking_clock str_scalar
           (StoreCommits (VInt 1296269) [hello_commit; world_commit]) seeded_manager).
  exact seeded_manager_unique.
Defined.

Lemma store_storable_records_witness :
  exists keys ws,
    (run_call ticking_clock str_scalar
       (StoreCommits (VInt 1296269) [hello_commit; world_commit]) seeded_manager).2
    = Ok keys /\
    length keys = 2%nat /\ length ws = 2%nat /\
    oplog (run_call ticking_clock str_scalar
             (StoreCommits (VInt 1296269) [hello_commit; world_commit]) seeded_manager).1.1
    = oplog seeded_manager ++ ws.
Proof.
  destruct (store_storable_records ticking_clock str_scalar
              (StoreCommits (VInt 1296269) [hello_commit; world_commit]) seeded_manager
              storable_commits)
    as (keys & ws & Hres & Hkeys & _ & Hlog & _ & Hlen & _).
  exists keys, ws. split; [exact Hres|].
  split; [exact (Forall2_length _ _ _ Hkeys)|]. split; [exact Hlen|exact Hlog].
Defined.

Lemma missing_key_aborts_batch_witness :
  (run_call ticking_clock str_scalar
     (StoreCommits (VInt 1296269) [hello_commit; no_sha_commit; world_commit])
     seeded_manager).2
  = Raise (KeyError "sha").
Proof.
  apply (missing_key_aborts_batch ticking_clock str_scalar
           (StoreCommits (VInt 1296269) []) [hello_commit] no_sha_commit [world_commit]
           seeded_manager).
  - repeat constructor; by vm_compute; eexists.
  - reflexivity.
  - reflexivity.
Defined.

Lemma missing_returned_field_is_stored_witness :
  (run_call ticking_clock str_scalar
     (StorePullRequests (VInt 1296269) [numbered_pull; unnumbered_pull])
     fresh_manager).2
  = Raise (KeyError "number") /\
  length (oplog (run_call ticking_clock str_scalar
                   (StorePullRequests (VInt 1296269) [numbered_pull; unnumbered_pull])
                   fresh_manager).1.1) = 2%nat.
Proof.
  destruct (missing_returned_field_is_stored ticking_clock str_scalar
              (StorePullRequests (VInt 1296269) []) [numbered_pull] unnumbered_pull []
              fresh_manager (VInt 502))
    as (Hres & Hlog & _).
  - repeat constructor; by vm_compute; eexists.
  - reflexivity.
  - reflexivity.
  - reflexivity.
  - split; [exact Hres|]. cbn [with_records app] in Hlog. rewrite Hlog.
    rewrite length_app. reflexivity.
Defined.

Lemma store_batch_splits_witness :
  (run_call ticking_clock str_scalar
     (StoreCommits (VInt 1296269) [hello_commit; world_commit]) seeded_manager).1.1
  = (run_call ticking_clock str_scalar (StoreCommits (VInt 1296269) [world_commit])
       (run_call ticking_clock str_scalar (StoreCommits (VInt 1296269) [hello_commit])
          seeded_manager).1.1).1.1.
Proof.
  apply (store_batch_splits ticking_clock str_scalar
           (StoreCommits (VInt 1296269) []) [hello_commit] [world_commit] seeded_manager).
  repeat constructor; by vm_compute; eexists.
Defined.

Lemma distinct_commits :
  NoDup ((fun r : doc => r !! "sha") <$> [hello_commit; world_commit]).
Proof.
  repeat constructor.
  - intros H. apply elem_of_cons in H as [H|H]; [by vm_compute in H|by apply elem_of_nil in H].
  - intros H. by apply elem_of_nil in H.
Qed.

Lemma store_into_empty_collection_witness :
  get_collection Commits
    (db (run_call ticking_clock str_scalar
           (StoreCommits (VInt 1296269) [hello_commit; world_commit]) fresh_manager).1.1)
  = [ stored_form (StoreCommits (VInt 1296269) [hello_commit; world_commit])
        (ticking_clock 0) hello_commit;
      stored_form (StoreCommits (VInt 1296269) [hello_commit; world_commit])
        (ticking_clock 1) world_commit ].
Proof.
  apply (store_into_empty_collection ticking_clock str_scalar
           (StoreCommits (VInt 1296269) [hello_commit; world_commit]) fresh_manager).
  - reflexivity.
  - exact storable_commits.
  - exact distinct_commits.
Defined.

Lemma stored_records_are_found_witness :
  exists d,
    d ∈ get_collection Commits
          (db (run_call ticking_clock str_scalar
                 (StoreCommits (VInt 1296269) [hello_commit; world_commit])
                 seeded_manager).1.1) /\
    stored_form (StoreCommits (VInt 1296269) [hello_commit; world_commit])
      (ticking_clock 8) world_commit ⊆ d.
Proof.
  apply (stored_records_are_found ticking_clock str_scalar
           (StoreCommits (VInt 1296269) [hello_commit; world_commit]) seeded_manager
           storable_commits distinct_commits 1%nat world_commit).
  reflexivity.
Defined.

End MongoExtra.
